(** * Camoco: the Ontology store and its enrichment test

    A shallow embedding of [camoco/Ontology.py].  The class keeps two SQLite
    relations, [terms (id TEXT UNIQUE, desc TEXT)] and
    [term_loci (term TEXT, id TEXT)], behind one connection [self.db], and
    every method talks to them through [self.db.cursor().execute(...)].

    The embedding has these layers:
    - the relational state and the queries the class issues (module [Sql]);
    - a state-and-exception monad [M] in which the methods are written the
      way the Python reads (module [Py]), and the statements of a cursor in
      it (module [Cursor]);
    - the methods of [Ontology] themselves (section [Ontology]), followed by
      what each of them computes as a function of the tables;
    - a small ontology on which the methods are run (module [Example]).

    The second half of the file reasons about the methods: methods that
    only read are related to functions of the tables ([reads]), methods that
    write are followed statement by statement, and the invariant of the
    store is carried through them by a Hoare judgement ([hoare]). *)

From stdpp Require Import gmap strings list sorting.
From Stdlib Require Import Ascii ZArith QArith.

#[local] Close Scope Q_scope.

#[local] Set Warnings "-clear-no-such-hyp".

(** ** Exceptions and outcomes *)

(** The exception classes that can leave a method of [Ontology]:
    - [TypeError]: unpacking the [None] that [fetchone()] returns when no
      row matches (the [except TypeError] branch of [__getitem__], marked
      "Not in database"); the design document calls it [NotFoundError],
      and gives the same class to the reference genome not knowing a
      locus id;
    - [ConstraintError]: [INSERT OR ABORT] hitting the [UNIQUE] constraint of
      [terms.id];
    - [SQLError]: a statement SQLite refuses ([BEGIN] inside a transaction,
      [END] outside of one, a text that does not parse);
    - [IOError]: the backend failing while it executes a statement. *)
Inductive exn : Set :=
  | TypeError
  | ConstraintError
  | SQLError
  | IOError.

#[global] Instance exn_eq_dec : EqDecision exn.
Proof. solve_decision. Defined.

(** The names the design document gives to the first two. *)
Definition NotFoundError : exn := TypeError.
Definition DuplicateTermError : exn := ConstraintError.

Inductive outcome (A : Type) : Type :=
  | Ok (a : A)
  | Raise (e : exn).
Arguments Ok {A} a.
Arguments Raise {A} e.

#[global] Instance outcome_ret : MRet outcome := λ A a, Ok a.
#[global] Instance outcome_bind : MBind outcome := λ A B k m,
  match m with
  | Ok a => k a
  | Raise e => Raise e
  end.

(** ** The relational state *)

Module Sql.

(** A row of [terms] is [(id, desc)]; a row of [term_loci] is
    [(term, id)].  Rows are kept in insertion (rowid) order. *)
Record tables : Set := Tables {
  terms : list (string * string);
  term_loci : list (string * string)
}.

(** The connection [self.db].  [committed] is what has been committed;
    [pending] is the working copy of an open transaction, which the
    connection reads and writes until [END TRANSACTION] commits it.
    [budget] is the health of the backend: [None] never fails, [Some n]
    executes [n] more statements and raises on the next one (after which
    it is healthy again). *)
Record database : Set := Database {
  committed : tables;
  pending : option tables;
  budget : option nat
}.

(** What a statement on this connection reads. *)
Definition view (w : database) : tables :=
  match pending w with
  | Some t => t
  | None => committed w
  end.

(** [SELECT DISTINCT]/[COUNT(DISTINCT ...)]: the values in order of first
    occurrence, [seen] being the ones already emitted. *)
Fixpoint distinct_from (seen l : list string) : list string :=
  match l with
  | [] => []
  | x :: l' =>
      if decide (x ∈ seen) then distinct_from seen l'
      else x :: distinct_from (x :: seen) l'
  end.

Definition distinct (l : list string) : list string := distinct_from [] l.

(** [SELECT COUNT( * ) FROM terms] *)
Definition count_terms (t : tables) : nat := length (terms t).

(** [SELECT * from terms WHERE id = ?] followed by [fetchone()] *)
Definition term_by_id (id : string) (t : tables) : option (string * string) :=
  head (filter (λ r, r.1 = id) (terms t)).

(** [SELECT id FROM term_loci WHERE term = ?] *)
Definition loci_of_term (term : string) (t : tables) : list string :=
  (filter (λ r, r.1 = term) (term_loci t)).*2.

(** [SELECT COUNT(DISTINCT(id)) FROM term_loci] *)
Definition count_distinct_loci (t : tables) : nat :=
  length (distinct (term_loci t).*2).

(** The [id] column of [terms], row by row: what the [UNIQUE] constraint
    of [terms.id] checks a new id against. *)
Definition term_ids (t : tables) : list string := (terms t).*1.

(** [SELECT id FROM terms]: the statement reads no column but [id], so
    SQLite answers it from the index that [id TEXT UNIQUE] creates, which
    holds the ids in ascending order (compared byte by byte, a prefix
    before its extensions), not from the rows. *)
Definition ids_by_index (t : tables) : list string :=
  merge_sort String.le (term_ids t).

(** [SELECT DISTINCT(term) FROM term_loci WHERE id IN (v1, ..., vn)] *)
Definition distinct_terms_in (vals : list string) (t : tables) : list string :=
  distinct (filter (λ r, r.2 ∈ vals) (term_loci t)).*1.

(** [INSERT ... INTO terms (id, desc) VALUES (?, ?)], the row itself *)
Definition with_term (id desc : string) (t : tables) : tables :=
  Tables (terms t ++ [(id, desc)]) (term_loci t).

(** [INSERT ... INTO term_loci (term, id) VALUES (?, ?)] *)
Definition with_term_locus (term id : string) (t : tables) : tables :=
  Tables (terms t) (term_loci t ++ [(term, id)]).

(** [DELETE FROM term_loci WHERE term = ?] *)
Definition without_term_loci (term : string) (t : tables) : tables :=
  Tables (terms t) (filter (λ r, r.1 ≠ term) (term_loci t)).

(** [DELETE FROM terms WHERE id = ?] *)
Definition without_term (id : string) (t : tables) : tables :=
  Tables (filter (λ r, r.1 ≠ id) (terms t)) (term_loci t).

(** [DELETE FROM terms] *)
Definition without_terms (t : tables) : tables := Tables [] (term_loci t).

(** [DELETE FROM term_loci] *)
Definition without_associations (t : tables) : tables := Tables (terms t) [].

(** *** The text of an [IN (...)] operand

    [enrichment] builds the operand of [IN] by formatting the locus ids
    into the statement: ["('{}')".format("','".join(ids))].  SQLite then
    reads that text.  [in_list] reads the texts that are a parenthesised,
    comma-separated list of string literals, a quote inside a literal
    being written twice; any other text is outside this fragment. *)

Inductive lexer : Set :=
  | AtOpen
  | AtLiteral (done : list string)
  | InLiteral (done : list string) (cur : string)
  | AfterQuote (done : list string) (cur : string)
  | AtEnd (done : list string).

Definition quote : ascii := "'"%char.

Fixpoint lex (st : lexer) (s : string) : option (list string) :=
  match s with
  | EmptyString =>
      match st with
      | AtEnd done => Some done
      | _ => None
      end
  | String c s' =>
      match st with
      | AtOpen =>
          if decide (c = "("%char) then lex (AtLiteral []) s' else None
      | AtLiteral done =>
          if decide (c = quote) then lex (InLiteral done "") s' else None
      | InLiteral done cur =>
          if decide (c = quote) then lex (AfterQuote done cur) s'
          else lex (InLiteral done (cur +:+ String c "")) s'
      | AfterQuote done cur =>
          if decide (c = quote) then lex (InLiteral done (cur +:+ String quote "")) s'
          else if decide (c = ","%char) then lex (AtLiteral (done ++ [cur])) s'
          else if decide (c = ")"%char) then lex (AtEnd (done ++ [cur])) s'
          else None
      | AtEnd _ => None
      end
  end.

Definition in_list (text : string) : option (list string) := lex AtOpen text.

(** An id is plain when it holds no quote. *)
Fixpoint plain (s : string) : bool :=
  match s with
  | EmptyString => true
  | String c s' => if decide (c = quote) then false else plain s'
  end.

End Sql.

Import Sql.

(** ** Python-side helpers *)

Module Py.

(** [sep.join(l)] *)
Fixpoint join (sep : string) (l : list string) : string :=
  match l with
  | [] => ""
  | x :: l' =>
      match l' with
      | [] => x
      | _ :: _ => x +:+ sep +:+ join sep l'
      end
  end.

(** Statements run against the connection: a state monad over
    [database] with exceptions.  The state survives an exception, as the
    connection survives a Python exception. *)
Definition M (A : Type) : Type := database → outcome A * database.

#[global] Instance M_ret : MRet M := λ A a w, (Ok a, w).
#[global] Instance M_bind : MBind M := λ A B k m w,
  match m w with
  | (Ok a, w') => k a w'
  | (Raise e, w') => (Raise e, w')
  end.

Definition raise {A} (e : exn) : M A := λ w, (Raise e, w).

(** An action given by what it does to the connection. *)
Definition action {A} (f : database → outcome A * database) : M A := f.

(** An iterable handed to a method: a sequence (a list, a tuple), which
    every [for] walks from its start, or a one-pass iterator (a generator),
    which the first [for] that walks it exhausts. *)
Inductive iterable (A : Type) : Type :=
  | Sequence (l : list A)
  | Generator (l : list A).
Arguments Sequence {A} l.
Arguments Generator {A} l.

(** What a [for] over the iterable walks. *)
Definition elements {A} (it : iterable A) : list A :=
  match it with
  | Sequence l => l
  | Generator l => l
  end.

(** The iterable once a [for] has walked it to its end. *)
Definition walked {A} (it : iterable A) : iterable A :=
  match it with
  | Sequence l => Sequence l
  | Generator _ => Generator []
  end.

(** [for x in l: body x] *)
Fixpoint for_each {A} (body : A → M unit) (l : list A) : M unit :=
  match l with
  | [] => mret ()
  | x :: l' => body x ;; for_each body l'
  end.

(** [[f x for x in l]] *)
Fixpoint comprehension {A B} (f : A → M B) (l : list A) : M (list B) :=
  match l with
  | [] => mret []
  | x :: l' => y ← f x; ys ← comprehension f l'; mret (y :: ys)
  end.

(** A loop that threads a local variable [acc] through its body. *)
Fixpoint for_acc {A S} (body : S → A → M S) (acc : S) (l : list A) : M S :=
  match l with
  | [] => mret acc
  | x :: l' => acc' ← body acc x; for_acc body acc' l'
  end.

End Py.

Import Py.

(** ** [cursor.execute] *)

Module Cursor.

(** Every statement first reaches the backend, which may fail. *)
Definition step : M unit := λ w,
  match budget w with
  | None => (Ok (), w)
  | Some (S n) => (Ok (), Database (committed w) (pending w) (Some n))
  | Some O => (Raise IOError, Database (committed w) (pending w) None)
  end.

(** A [SELECT]. *)
Definition select {A} (q : tables → A) : M A :=
  step ;; action (λ w, (Ok (q (view w)), w)).

(** A write: to the working copy inside a transaction, otherwise
    committed at once (autocommit). *)
Definition write (f : tables → tables) : M unit := λ w,
  match pending w with
  | Some t => (Ok (), Database (committed w) (Some (f t)) (budget w))
  | None => (Ok (), Database (f (committed w)) None (budget w))
  end.

(** The connection after a write. *)
Definition written (f : tables → tables) (w : database) : database :=
  (write f w).2.

(** [BEGIN TRANSACTION]: SQLite refuses to nest transactions. *)
Definition begin_transaction : M unit :=
  step ;; action (λ w,
    match pending w with
    | Some _ => (Raise SQLError, w)
    | None => (Ok (), Database (committed w) (Some (committed w)) (budget w))
    end).

(** [END TRANSACTION] commits; outside of a transaction it is refused. *)
Definition end_transaction : M unit :=
  step ;; action (λ w,
    match pending w with
    | Some t => (Ok (), Database t None (budget w))
    | None => (Raise SQLError, w)
    end).

(** [INSERT OR ABORT INTO terms (id, desc) VALUES (?, ?)]: on a conflict
    with [id TEXT UNIQUE] the statement is undone and raises; earlier
    statements of the transaction stay, and so does the transaction. *)
Definition insert_term (id desc : string) : M unit :=
  step ;; action (λ w,
    if decide (id ∈ term_ids (view w)) then (Raise ConstraintError, w)
    else write (with_term id desc) w).

(** [INSERT OR ABORT INTO term_loci (term, id) VALUES (?, ?)]: the
    relation has no constraint. *)
Definition insert_term_locus (term id : string) : M unit :=
  step ;; write (with_term_locus term id).

(** [DELETE FROM term_loci WHERE term = ?; DELETE FROM terms WHERE id = ?;]
    with bindings [(id, id)]: two statements in one [execute]. *)
Definition delete_term (id : string) : M unit :=
  step ;; write (without_term_loci id) ;;
  step ;; write (without_term id).

End Cursor.

Import Cursor.

(** ** Judgements on methods *)

Module Logic.

(** A method [m] that only reads: it leaves the tables alone, and what it
    returns is [f] of the tables it sees, unless the backend fails. *)
Definition reads {A} (m : M A) (f : tables → outcome A) : Prop :=
  ∀ w,
    committed (m w).2 = committed w ∧ pending (m w).2 = pending w
    ∧ (budget w = None → m w = (f (view w), w))
    ∧ ((m w).1 = f (view w) ∨ (m w).1 = Raise IOError).

(** From tables satisfying [P], [m] ends on tables satisfying [Q] when
    it returns and [E] when it raises. *)
Definition hoare {A} (P : tables → Prop) (m : M A)
    (Q : A → tables → Prop) (E : tables → Prop) : Prop :=
  ∀ w, P (view w) →
    match m w with
    | (Ok a, w') => Q a (view w')
    | (Raise _, w') => E (view w')
    end.


End Logic.

Import Logic.

(** ** Terms *)

Module Term.

(** Modelled from the spec: [Term.py] is not among the sources.  A term is
    an identifier, a free-text description, an ordered collection of loci
    and an attribute bag for derived annotations, empty at construction
    ([Term(id, desc=desc, loci=term_loci)]). *)
Record t (Locus pval : Type) : Type := Build {
  id : string;
  desc : string;
  loci : list Locus;
  attrs : gmap string pval
}.
Arguments Build {Locus pval} id desc loci attrs.
Arguments id {Locus pval} _.
Arguments desc {Locus pval} _.
Arguments loci {Locus pval} _.
Arguments attrs {Locus pval} _.

(** [term.attrs[key] = v] *)
Definition set_attr {Locus pval} (key : string) (v : pval) (term : t Locus pval)
  : t Locus pval :=
  Build (id term) (desc term) (loci term) (<[key := v]> (attrs term)).

End Term.

(** ** The class [Ontology] *)

Section Ontology.

(** A locus is a value with an [id]; Python compares and hashes loci when
    it puts them in a [set]. *)
Context {Locus : Type} `{Countable Locus}.
Variable locus_id : Locus → string.

(** The genes of the reference genome [self.refgen], by id. *)
Variable genes : string → option Locus.

(** p-values are floating-point numbers, compared with [<=];
    [hypergeom_sf k M n N] is [scipy.stats.hypergeom.sf(k, M, n, N)]. *)
Context {pval : Type}.
Variable pval_le : pval → pval → bool.
Variable hypergeom_sf : nat → nat → nat → nat → pval.

(** What SQLite does with the candidate query of [enrichment] when the
    formatted operand of [IN] is not a list of string literals.  Such a
    text can close the query and go on with statements of its own, which
    [execute] runs as well: besides the rows or the error of the call,
    this gives the committed tables and the open transaction it leaves
    behind, from the ones it found. *)
Variable sqlite_other :
  string → tables → option tables → outcome (list string) * (tables * option tables).

Abbreviation Term := (Term.t Locus pval).

(** The [cursor] argument of [add_term] and [del_term]: a cursor of
    [self.db] handed in by a caller that batches statements. *)
Inductive cursor : Set := BatchCursor.

(** Modelled from the spec: [RefGen.py] is not among the sources.
    [self.refgen[gene_id]], with [gene_id] the row of the cursor that holds
    the id, resolves one locus id and fails with [NotFoundError] when the
    id is unknown. *)
Definition refgen_getitem (gene_id : string) : M Locus :=
  match genes gene_id with
  | Some locus => mret locus
  | None => raise NotFoundError
  end.

(** Modelled from the spec: [RefGen.py] is not among the sources.
    [self.refgen.from_ids(ids)] resolves in bulk and silently drops the
    ids it does not know. *)
Definition from_ids (ids : list string) : list Locus := omap genes ids.

(** [s.intersection(other)] for an iterable [other]: the elements of
    [other] that are in [s], collected in a new set. *)
Definition intersection (s : gset Locus) (other : list Locus) : gset Locus :=
  list_to_set (filter (λ x, x ∈ s) other).

(** [__len__] *)
Definition len : M nat := select count_terms.

(** [__getitem__]: unpacking [None] when no row matches raises the
    [TypeError] that the [except] clause re-raises. *)
Definition getitem (id : string) : M Term :=
  row ← select (term_by_id id);
  match row with
  | None => raise TypeError
  | Some (id, desc) =>
      gene_ids ← select (loci_of_term id);
      term_loci ← comprehension refgen_getitem gene_ids;
      mret (Term.Build id desc term_loci ∅)
  end.

(** [num_distinct_loci] *)
Definition num_distinct_loci : M nat := select count_distinct_loci.

(** [del_term]: [term] is a [Term] or the id itself. *)
Definition del_term (term : Term + string) (cursor : option cursor) : M unit :=
  (if cursor is None then begin_transaction else mret ()) ;;
  let id := match term with inl t => Term.id t | inr s => s end in
  delete_term id ;;
  (if cursor is None then end_transaction else mret ()).

(** [add_term] *)
Definition add_term (term : Term) (cursor : option cursor) (overwrite : bool)
  : M unit :=
  (if overwrite then del_term (inr (Term.id term)) None else mret ()) ;;
  (if cursor is None then begin_transaction else mret ()) ;;
  insert_term (Term.id term) (Term.desc term) ;;
  match Term.loci term with
  | [] => mret ()
  | _ :: _ =>
      for_each
        (λ locus, insert_term_locus (Term.id term) (locus_id locus))
        (Term.loci term)
  end ;;
  (if cursor is None then end_transaction else mret ()).

(** [del_terms]: [terms] is what the one [for] of the method walks. *)
Definition del_terms (terms : list Term) : M unit :=
  begin_transaction ;;
  for_each (λ term, del_term (inl term) (Some BatchCursor)) terms ;;
  end_transaction.

(** [add_terms]: with [overwrite], [self.del_terms(terms)] walks the
    iterable before the [for] of the method does. *)
Definition add_terms (terms : iterable Term) (overwrite : bool) : M unit :=
  (if overwrite then del_terms (elements terms) else mret ()) ;;
  let terms := if overwrite then walked terms else terms in
  begin_transaction ;;
  for_each (λ term, add_term term (Some BatchCursor) false) (elements terms) ;;
  end_transaction.

(** [iter_terms] consumed to its end, which is what [terms()] returns:
    [list(self.iter_terms())]. *)
Definition iter_terms : M (list Term) :=
  ids ← select ids_by_index;
  comprehension getitem ids.

(** [_clear_tables]: [DELETE FROM terms; DELETE FROM term_loci;], two
    statements in one [execute]; the method opens no transaction. *)
Definition _clear_tables : M unit :=
  step ;; write without_terms ;;
  step ;; write without_associations.

(** The operand of [IN] as [enrichment] formats it. *)
Definition in_operand (locus_list : list Locus) : string :=
  "('" +:+ join "','" (locus_id <$> locus_list) +:+ "')".

(** A text outside the fragment of [in_list], executed: SQLite runs what
    it holds on the connection.  The backend is reached once for the
    call; a failure inside the text is part of what [sqlite_other]
    answers. *)
Definition execute_other (text : string) : M (list string) :=
  step ;; action (λ w,
    let '(rows, (c, p)) := sqlite_other text (committed w) (pending w) in
    (rows, Database c p (budget w))).

(** [SELECT DISTINCT(term) FROM term_loci WHERE id IN ('{}')], executed
    with the operand formatted into it: when the operand is a list of
    string literals, the distinct terms with an association whose locus id
    is one of the literals. *)
Definition select_candidates (text : string) : M (list string) :=
  match in_list text with
  | Some vals => select (distinct_terms_in vals)
  | None => execute_other text
  end.

(** The body of the loop over the candidate terms; [significant_terms]
    is the list the loop appends to.  [term.name] is the term's id. *)
Definition test_term (locus_list : list Locus) (pval_cutoff : pval)
    (max_term_size : Z) (significant_terms : list Term) (term : Term)
  : M (list Term) :=
  ids ← select (loci_of_term (Term.id term));
  let term_genes : gset Locus := list_to_set (from_ids ids) in
  if bool_decide (max_term_size < Z.of_nat (size term_genes))%Z
  then mret significant_terms
  else
    let num_common := size (intersection term_genes locus_list) in
    let num_in_term := size term_genes in
    let num_sampled := length locus_list in
    num_universe ← num_distinct_loci;
    let pval := hypergeom_sf num_common num_universe num_in_term num_sampled in
    if pval_le pval pval_cutoff
    then mret (significant_terms ++ [Term.set_attr "pval" pval term])
    else mret significant_terms.

(** [enrichment] *)
Definition enrichment (locus_list : list Locus) (pval_cutoff : pval)
    (max_term_size : Z) : M (list Term) :=
  names ← select_candidates (in_operand locus_list);
  terms ← comprehension getitem names;
  for_acc (test_term locus_list pval_cutoff max_term_size) [] terms.

(** *** The methods on given tables

    What each method returns or writes, as a function of the tables the
    connection sees. *)

(** [self.refgen[gene_id]] as a value. *)
Definition resolve (gene_id : string) : outcome Locus :=
  match genes gene_id with
  | Some locus => Ok locus
  | None => Raise NotFoundError
  end.

(** What [self[id]] returns on tables [t]. *)
Definition lookup (id : string) (t : tables) : outcome Term :=
  match term_by_id id t with
  | None => Raise TypeError
  | Some (id, desc) =>
      term_loci ← mapM resolve (loci_of_term id t);
      mret (Term.Build id desc term_loci ∅)
  end.

(** The resolved membership of a term: [term_genes] in [enrichment]. *)
Definition membership (t : tables) (term : string) : gset Locus :=
  list_to_set (from_ids (loci_of_term term t)).

(** The p-value [enrichment] computes for a term. *)
Definition pval_of (locus_list : list Locus) (t : tables) (term : string) : pval :=
  hypergeom_sf
    (size (intersection (membership t term) locus_list))
    (count_distinct_loci t)
    (size (membership t term))
    (length locus_list).

(** One turn of the loop of [enrichment] on tables [t]. *)
Definition tested (locus_list : list Locus) (pval_cutoff : pval)
    (max_term_size : Z) (t : tables) (significant_terms : list Term)
    (term : Term) : list Term :=
  if bool_decide (max_term_size < Z.of_nat (size (membership t (Term.id term))))%Z
  then significant_terms
  else if pval_le (pval_of locus_list t (Term.id term)) pval_cutoff
  then significant_terms
         ++ [Term.set_attr "pval" (pval_of locus_list t (Term.id term)) term]
  else significant_terms.

(** What [enrichment] returns on tables [t] once the candidate query has
    answered [names]. *)
Definition enriched (locus_list : list Locus) (pval_cutoff : pval)
    (max_term_size : Z) (names : list string) (t : tables)
  : outcome (list Term) :=
  terms ← mapM (λ name, lookup name t) names;
  mret (foldl (tested locus_list pval_cutoff max_term_size t) [] terms).

(** The association rows [add_term] inserts for a term. *)
Definition rows_of (term : Term) : list (string * string) :=
  (λ locus, (Term.id term, locus_id locus)) <$> Term.loci term.

(** The tables with [rows] appended to [term_loci]. *)
Definition with_rows (rows : list (string * string)) (t : tables) : tables :=
  Tables (terms t) (term_loci t ++ rows).

(** The tables after [add_term] has inserted [term]. *)
Definition added (term : Term) (t : tables) : tables :=
  Tables (terms t ++ [(Term.id term, Term.desc term)])
         (term_loci t ++ rows_of term).

(** The tables after [del_term] has deleted [id]. *)
Definition deleted (id : string) (t : tables) : tables :=
  without_term id (without_term_loci id t).

(** The tables after [del_terms] has deleted every term of [terms]. *)
Definition deleted_all (terms : list Term) (t : tables) : tables :=
  foldl (λ t term, deleted (Term.id term) t) t terms.

(** The insert pass of [add_terms] on tables [t]: the tables it has
    reached, and whether every insert went through; it stops at the first
    term whose id is already there. *)
Fixpoint inserted (terms : list Term) (t : tables) : tables * bool :=
  match terms with
  | [] => (t, true)
  | term :: terms' =>
      if decide (Term.id term ∈ term_ids t) then (t, false)
      else inserted terms' (added term t)
  end.

(** The terms the [for] of [add_terms] walks: with [overwrite], what is
    left of the iterable after [del_terms] has walked it. *)
Definition insert_pass (terms : iterable Term) (overwrite : bool) : list Term :=
  elements (if overwrite then walked terms else terms).

(** What [terms()] returns on tables [t]. *)
Definition listed (t : tables) : outcome (list Term) :=
  mapM (λ id, lookup id t) (ids_by_index t).

(** The [UNIQUE] constraint of [terms.id]. *)
Definition unique_ids (t : tables) : Prop := NoDup (term_ids t).

(** Every association row belongs to a stored term: the store that
    [create] builds has it, and the methods keep it. *)
Definition store_inv (t : tables) : Prop :=
  ∀ row, row ∈ term_loci t → row.1 ∈ term_ids t.

End Ontology.

(** * A small ontology

    An instance used to run the methods: loci are given by their ids,
    p-values are rationals, and [hypergeom.sf] is the exact value of the
    survival function (the real one is computed in floating point). *)

Module Example.

Definition Locus : Type := string.
Definition locus_id (locus : Locus) : string := locus.

(** The reference genome knows four loci, one of them with an empty id. *)
Definition genes (gene_id : string) : option Locus :=
  if decide (gene_id ∈ ["a"; "b"; "c"; ""]) then Some gene_id else None.

Fixpoint fact (n : nat) : Z :=
  match n with
  | O => 1
  | S n' => Z.of_nat n * fact n'
  end.

Definition binom (n k : nat) : Z :=
  if decide (k ≤ n) then (fact n / (fact k * fact (n - k)))%Z else 0%Z.

(** P(X > k) for X the number of successes in [N] draws without
    replacement from [M] items of which [n] are successes. *)
Definition hypergeom_sf (k M n N : nat) : Q :=
  Qmake
    (foldr (λ i acc, binom n i * binom (M - n) (N - i) + acc)%Z 0%Z
       (seq (S k) (N - k)))
    (Z.to_pos (binom M N)).

(** In this instance an operand that is not a list of string literals is
    taken to be rejected, as is ['a'b'], the one such operand used below;
    a rejected text changes nothing. *)
Definition sqlite_other (text : string) (c : tables) (p : option tables)
  : outcome (list string) * (tables * option tables) :=
  (Raise SQLError, (c, p)).

(** A second instance, for the one operand [('x'); DELETE FROM terms; --')],
    which the locus id [x'); DELETE FROM terms; --] is formatted into:
    the query answers no row, no association having the id [x], and the
    statement after it deletes the terms. *)
Definition sqlite_smuggled (text : string) (c : tables) (p : option tables)
  : outcome (list string) * (tables * option tables) :=
  if decide (text = "('x'); DELETE FROM terms; --')")
  then (Ok [],
        match p with
        | Some t => (c, Some (without_terms t))
        | None => (without_terms c, None)
        end)
  else (Raise SQLError, (c, p)).

Abbreviation Term := (Term.t Locus Q).

Definition add_term := add_term (pval := Q) locus_id.
Definition getitem := getitem (pval := Q) genes.
Definition enrichment_smuggled :=
  enrichment locus_id genes Qle_bool hypergeom_sf sqlite_smuggled.
Definition enrichment :=
  enrichment locus_id genes Qle_bool hypergeom_sf sqlite_other.

Definition T1 : Term := Term.Build "T1" "first term" ["a"; "b"] ∅.
Definition T2 : Term := Term.Build "T2" "second term" [""] ∅.
Definition T3 : Term := Term.Build "T3" "third term" ["zz"] ∅.

(** The store that [create] builds. *)
Definition created : database := Database (Tables [] []) None None.

(** The store after [add_term(T1)] and [add_term(T2)]. *)
Definition stored : database :=
  Database
    (Tables [("T1", "first term"); ("T2", "second term")]
            [("T1", "a"); ("T1", "b"); ("T2", "")])
    None None.

(** The store on whose connection [add_term(T1)] has been interrupted
    after the first association row. *)
Definition interrupted : database :=
  Database (Tables [] [])
    (Some (Tables [("T1", "first term")] [("T1", "a")])) None.

(** [T1] as [enrichment] returns it for the locus list [["a"]]. *)
Definition T1_enriched : Term := Term.set_attr "pval" (hypergeom_sf 1 3 2 1) T1.

End Example.

(** * Reasoning *)

(** ** Facts about the queries *)

Section QueryFacts.

Lemma elem_of_distinct_from (x : string) seen l :
  x ∈ distinct_from seen l ↔ x ∈ l ∧ x ∉ seen.
Proof.
  revert seen. induction l as [|y l IH]; intros seen; simpl.
  - set_solver.
  - case_decide as Hy.
    + rewrite IH. set_solver.
    + rewrite elem_of_cons, IH. split.
      * intros [->|[Hx Hs]]; [set_solver|].
        split; [set_solver|]. intros Hin. apply Hs. set_solver.
      * intros [Hx Hs]. destruct (decide (x = y)) as [->|Hne]; [by left|].
        right. split; set_solver.
Qed.

Lemma NoDup_distinct_from seen l : NoDup (distinct_from seen l).
Proof.
  revert seen. induction l as [|y l IH]; intros seen; simpl.
  - constructor.
  - case_decide; [apply IH|].
    constructor; [|apply IH].
    rewrite elem_of_distinct_from. set_solver.
Qed.

Lemma elem_of_distinct (x : string) l : x ∈ distinct l ↔ x ∈ l.
Proof. unfold distinct. rewrite elem_of_distinct_from. set_solver. Qed.

Lemma NoDup_distinct l : NoDup (distinct l).
Proof. apply NoDup_distinct_from. Qed.

(** Counting distinct values is counting the elements of the set. *)
Lemma length_distinct l : length (distinct l) = size (list_to_set l : gset string).
Proof.
  rewrite <- (size_list_to_set (C := gset string) (distinct l))
    by apply NoDup_distinct.
  f_equal. apply set_eq. intros x.
  by rewrite !elem_of_list_to_set, elem_of_distinct.
Qed.

Lemma filter_none {A} (P : A → Prop) `{∀ x, Decision (P x)} (l : list A) :
  (∀ x, x ∈ l → ¬ P x) → filter P l = [].
Proof.
  intros Hn. destruct (filter P l) as [|x l'] eqn:E; [done|].
  assert (Hx : x ∈ filter P l) by (rewrite E; left).
  apply list_elem_of_filter in Hx as [HP Hx]. by destruct (Hn x Hx).
Qed.

Lemma term_by_id_None id t : term_by_id id t = None ↔ id ∉ term_ids t.
Proof.
  unfold term_by_id, term_ids. rewrite head_None. split.
  - intros Hf Hin. apply list_elem_of_fmap in Hin as (r & Hr & Hin).
    assert (Hin' : r ∈ filter (λ r, r.1 = id) (terms t))
      by (apply list_elem_of_filter; done).
    rewrite Hf in Hin'. by apply not_elem_of_nil in Hin'.
  - intros Hn. apply filter_none.
    intros r Hin Hr. apply Hn, list_elem_of_fmap. by exists r.
Qed.

Lemma term_by_id_Some id t r :
  term_by_id id t = Some r → r.1 = id ∧ r ∈ terms t.
Proof.
  unfold term_by_id. intros Hh.
  assert (Hin : r ∈ filter (λ r, r.1 = id) (terms t)).
  { destruct (filter _ _) as [|r' ?]; simplify_eq/=. by left. }
  by apply list_elem_of_filter in Hin.
Qed.

Lemma view_eq w w' :
  committed w' = committed w → pending w' = pending w → view w' = view w.
Proof. unfold view. by intros -> ->. Qed.

End QueryFacts.

(** ** Running statements *)

Section Running.

Lemma bind_run {A B} (m : M A) (k : A → M B) w :
  (m ≫= k) w =
  match m w with
  | (Ok a, w') => k a w'
  | (Raise e, w') => (Raise e, w')
  end.
Proof. reflexivity. Qed.

Lemma step_healthy w : budget w = None → step w = (Ok (), w).
Proof. unfold step. by intros ->. Qed.

(** A statement that reaches a backend with budget [Some 0] fails; any
    other budget lets it through and leaves the tables alone. *)
Lemma step_cases w :
  (step w = (Raise IOError, Database (committed w) (pending w) None)
     ∧ budget w = Some 0)
  ∨ (∃ b, step w = (Ok (), Database (committed w) (pending w) b)
       ∧ budget w ≠ Some 0 ∧ (budget w = None → b = None)).
Proof.
  unfold step. destruct w as [c p [[|n]|]]; simpl.
  - by left.
  - right. exists (Some n). done.
  - right. exists None. done.
Qed.

Lemma reads_ret {A} (a : A) : reads (mret a) (λ _, Ok a).
Proof. intros w. repeat split; auto. Qed.

Lemma reads_raise {A} e : reads (raise (A := A) e) (λ _, Raise e).
Proof. intros w. repeat split; auto. Qed.

Lemma reads_bind {A B} (m : M A) (k : A → M B) f g :
  reads m f → (∀ a, reads (k a) (g a)) →
  reads (m ≫= k) (λ t, f t ≫= λ a, g a t).
Proof.
  intros Hm Hk w. rewrite bind_run.
  destruct (Hm w) as (Hc & Hp & Hh & Ho).
  destruct (m w) as [[a|e] w1] eqn:Em; simpl in *.
  - destruct (Hk a w1) as (Hc' & Hp' & Hh' & Ho').
    rewrite (view_eq w w1) in * by done.
    assert (Hf : f (view w) = Ok a) by (destruct Ho; congruence).
    rewrite Hf. simpl. repeat split; try congruence.
    intros Hb. specialize (Hh Hb). simplify_eq. auto.
  - repeat split; auto.
    + intros Hb. specialize (Hh Hb). injection Hh as <- ->. done.
    + destruct Ho as [<-|Ho]; [left; reflexivity|right; congruence].
Qed.

Lemma reads_select {A} (q : tables → A) : reads (select q) (λ t, Ok (q t)).
Proof.
  intros w. unfold select. rewrite bind_run.
  destruct (step_cases w) as [[-> Hb]|(b & -> & Hb & Hn)]; simpl.
  - repeat split; auto. intros; congruence.
  - unfold action. simpl. repeat split; auto.
    intros Hw. rewrite (Hn Hw). destruct w; simpl in *; by subst.
Qed.

Lemma reads_ext {A} (m : M A) f g : (∀ t, f t = g t) → reads m f → reads m g.
Proof. intros Hfg Hm w. rewrite <- Hfg. apply Hm. Qed.

Lemma reads_comprehension {A B} (f : A → M B) (g : A → tables → outcome B) l :
  (∀ x, reads (f x) (g x)) →
  reads (comprehension f l) (λ t, mapM (λ x, g x t) l).
Proof.
  intros Hf. induction l as [|x l IH]; simpl.
  - apply reads_ret.
  - apply (reads_bind _ _ (g x)); [apply Hf|]. intros y.
    apply (reads_bind _ _ (λ t, mapM (λ x, g x t) l)); [apply IH|].
    intros ys. apply reads_ret.
Qed.

Lemma write_run f w : write f w = (Ok (), written f w).
Proof. unfold written, write. by destruct (pending w). Qed.

Lemma view_written f w : view (written f w) = f (view w).
Proof. unfold written, write, view. by destruct (pending w). Qed.

Lemma budget_written f w : budget (written f w) = budget w.
Proof. unfold written, write. by destruct (pending w). Qed.



Lemma select_healthy {A} (q : tables → A) w :
  budget w = None → select q w = (Ok (q (view w)), w).
Proof. intros Hb. by destruct (reads_select q w) as (_ & _ & -> & _). Qed.

Lemma insert_term_locus_healthy term id w :
  budget w = None →
  insert_term_locus term id w = (Ok (), written (with_term_locus term id) w).
Proof.
  intros Hb. unfold insert_term_locus. rewrite bind_run, step_healthy by done.
  apply write_run.
Qed.

(** What a reading method returns, when it returns. *)
Lemma reads_Ok {A} (m : M A) f w a w' :
  reads m f → m w = (Ok a, w') → f (view w) = Ok a ∧ view w' = view w.
Proof.
  intros Hm Hw. destruct (Hm w) as (Hc & Hp & _ & Ho).
  rewrite Hw in *. simpl in *. split; [|by apply view_eq].
  destruct Ho; congruence.
Qed.

End Running.

(** ** The methods that read *)

Section Reading.

Context {Locus : Type} `{Countable Locus}.
Variable locus_id : Locus → string.
Variable genes : string → option Locus.
Context {pval : Type}.
Variable pval_le : pval → pval → bool.
Variable hypergeom_sf : nat → nat → nat → nat → pval.
Variable sqlite_other :
  string → tables → option tables → outcome (list string) * (tables * option tables).

Abbreviation Term := (Term.t Locus pval).

Lemma mapM_Ok {A B} (f : A → outcome B) l ys :
  mapM f l = Ok ys → Forall2 (λ x y, f x = Ok y) l ys.
Proof.
  revert ys. induction l as [|x l IH]; intros ys; simpl.
  - intros [= <-]. constructor.
  - destruct (f x) as [y|e] eqn:Ex; simpl; [|done].
    destruct (mapM f l) as [ys'|e] eqn:El; simpl; [|done].
    intros [= <-]. constructor; auto.
Qed.

Lemma reads_refgen_getitem gene_id :
  reads (refgen_getitem genes gene_id) (λ _, resolve genes gene_id).
Proof.
  unfold refgen_getitem, resolve.
  destruct (genes gene_id); [apply reads_ret|apply reads_raise].
Qed.


Lemma reads_num_distinct_loci :
  reads num_distinct_loci (λ t, Ok (count_distinct_loci t)).
Proof. apply reads_select. Qed.

Lemma reads_getitem id : reads (getitem genes (pval := pval) id) (lookup genes id).
Proof.
  unfold getitem.
  apply (reads_bind _ _ (λ t, Ok (term_by_id id t))
           (λ row t,
              match row with
              | Some (id, desc) =>
                  term_loci ← mapM (resolve genes) (loci_of_term id t);
                  mret (Term.Build id desc term_loci ∅)
              | None => Raise TypeError
              end)).
  { apply reads_select. }
  intros [[i d]|]; [|apply reads_raise].
  apply (reads_bind _ _ (λ t, Ok (loci_of_term i t))
           (λ gene_ids _,
              term_loci ← mapM (resolve genes) gene_ids;
              mret (Term.Build i d term_loci ∅))).
  { apply reads_select. }
  intros gene_ids.
  apply (reads_bind _ _ (λ _, mapM (resolve genes) gene_ids)
           (λ term_loci _, Ok (Term.Build i d term_loci ∅))).
  - apply (reads_comprehension _ (λ x _, resolve genes x)).
    apply reads_refgen_getitem.
  - intros l. apply reads_ret.
Qed.

(** The candidate query only reads when its operand is a list of string
    literals. *)
Lemma reads_select_candidates text vals :
  in_list text = Some vals →
  reads (select_candidates sqlite_other text)
        (λ t, Ok (distinct_terms_in vals t)).
Proof. intros Hv. unfold select_candidates. rewrite Hv. apply reads_select. Qed.

Lemma select_candidates_literal text vals w names w0 :
  in_list text = Some vals →
  select_candidates sqlite_other text w = (Ok names, w0) →
  names = distinct_terms_in vals (view w) ∧ view w0 = view w.
Proof.
  intros Hv Hrun.
  apply (reads_Ok _ _ _ _ _ (reads_select_candidates _ _ Hv)) in Hrun
    as [Hnames Hview].
  split; [congruence|done].
Qed.

(** Whatever the operand, the candidate query leaves a healthy backend
    healthy. *)
Lemma select_candidates_budget text w :
  budget w = None → budget (select_candidates sqlite_other text w).2 = None.
Proof.
  intros Hb. unfold select_candidates. destruct (in_list text).
  - by rewrite select_healthy.
  - unfold execute_other. rewrite bind_run, step_healthy by done.
    unfold action. by destruct (sqlite_other _ _ _) as [rows [c p]].
Qed.

Lemma reads_test_term locus_list pval_cutoff max_term_size acc term :
  reads
    (test_term genes pval_le hypergeom_sf locus_list pval_cutoff max_term_size
       acc term)
    (λ t, Ok (tested genes pval_le hypergeom_sf
        locus_list pval_cutoff max_term_size t acc term)).
Proof.
  unfold test_term.
  eapply reads_ext;
    [|apply (reads_bind _ _ (λ t, Ok (loci_of_term (Term.id term) t))
        (λ ids t,
           if bool_decide
                (max_term_size
                 < Z.of_nat (size (list_to_set (from_ids genes ids) : gset Locus)))%Z
           then Ok acc
           else
             n ← Ok (count_distinct_loci t);
             if pval_le
                  (hypergeom_sf
                     (size (intersection (list_to_set (from_ids genes ids))
                              locus_list))
                     n
                     (size (list_to_set (from_ids genes ids) : gset Locus))
                     (length locus_list)) pval_cutoff
             then Ok (acc ++ [Term.set_attr "pval"
                  (hypergeom_sf
                     (size (intersection (list_to_set (from_ids genes ids))
                              locus_list))
                     n
                     (size (list_to_set (from_ids genes ids) : gset Locus))
                     (length locus_list)) term])
             else Ok acc))].
  - intros t. simpl. unfold tested, pval_of, membership.
    repeat case_match; reflexivity.
  - apply reads_select.
  - intros ids. simpl. case_bool_decide; [apply reads_ret|].
    apply (reads_bind _ _ (λ t, Ok (count_distinct_loci t))
             (λ n _,
                if pval_le
                     (hypergeom_sf
                        (size (intersection (list_to_set (from_ids genes ids))
                                 locus_list))
                        n
                        (size (list_to_set (from_ids genes ids) : gset Locus))
                        (length locus_list)) pval_cutoff
                then Ok (acc ++ [Term.set_attr "pval"
                     (hypergeom_sf
                        (size (intersection (list_to_set (from_ids genes ids))
                                 locus_list))
                        n
                        (size (list_to_set (from_ids genes ids) : gset Locus))
                        (length locus_list)) term])
                else Ok acc)).
    { apply reads_num_distinct_loci. }
    intros n. simpl. destruct (pval_le _ _); apply reads_ret.
Qed.

Lemma reads_for_acc {A S} (body : S → A → M S) (g : tables → S → A → S) l :
  (∀ acc x, reads (body acc x) (λ t, Ok (g t acc x))) →
  ∀ acc, reads (for_acc body acc l) (λ t, Ok (foldl (g t) acc l)).
Proof.
  intros Hb. induction l as [|x l IH]; intros acc; simpl.
  - apply reads_ret.
  - apply (reads_bind _ _ (λ t, Ok (g t acc x))
             (λ a t, Ok (foldl (g t) a l))); [apply Hb|].
    intros a. apply IH.
Qed.

(** What [enrichment] does with the names the candidate query answered
    only reads. *)
Lemma reads_tests locus_list pval_cutoff max_term_size names :
  reads
    (terms ← comprehension (getitem genes) names;
     for_acc (test_term genes pval_le hypergeom_sf
                locus_list pval_cutoff max_term_size) [] terms)
    (enriched genes pval_le hypergeom_sf
        locus_list pval_cutoff max_term_size names).
Proof.
  unfold enriched.
  apply (reads_bind _ _ (λ t, mapM (λ name, lookup genes name t) names)
           (λ terms t, Ok (foldl (tested genes pval_le hypergeom_sf
               _ _ _ t) [] terms))).
  { apply (reads_comprehension _ (lookup genes)). apply reads_getitem. }
  intros terms. apply (reads_for_acc _ (tested genes pval_le hypergeom_sf
      _ _ _)).
  intros acc x. apply reads_test_term.
Qed.

(** [enrichment] is the candidate query followed by the tests. *)
Lemma enrichment_run locus_list pval_cutoff max_term_size w :
  enrichment locus_id genes pval_le hypergeom_sf sqlite_other
      locus_list pval_cutoff max_term_size w
  = match select_candidates sqlite_other (in_operand locus_id locus_list) w with
    | (Ok names, w0) =>
        (terms ← comprehension (getitem genes) names;
         for_acc (test_term genes pval_le hypergeom_sf
                    locus_list pval_cutoff max_term_size) [] terms) w0
    | (Raise e, w0) => (Raise e, w0)
    end.
Proof. reflexivity. Qed.

(** With an operand that is a list of string literals, all of
    [enrichment] only reads. *)
Lemma reads_enrichment locus_list pval_cutoff max_term_size vals :
  in_list (in_operand locus_id locus_list) = Some vals →
  reads
    (enrichment locus_id genes pval_le hypergeom_sf sqlite_other
       locus_list pval_cutoff max_term_size)
    (λ t, enriched genes pval_le hypergeom_sf
        locus_list pval_cutoff max_term_size (distinct_terms_in vals t) t).
Proof.
  intros Hv. unfold enrichment.
  apply (reads_bind _ _ (λ t, Ok (distinct_terms_in vals t))
           (λ names t, enriched genes pval_le hypergeom_sf
               locus_list pval_cutoff max_term_size names t)).
  { by apply reads_select_candidates. }
  intros names. apply reads_tests.
Qed.

(** What a returning [enrichment] has gone through: the candidate query
    answered, and the result is the tests on the tables it left, which
    are the tables at the end of the call. *)
Lemma enrichment_Ok locus_list pval_cutoff max_term_size w r w' :
  enrichment locus_id genes pval_le hypergeom_sf sqlite_other
      locus_list pval_cutoff max_term_size w = (Ok r, w') →
  ∃ names w0,
    select_candidates sqlite_other (in_operand locus_id locus_list) w
    = (Ok names, w0)
    ∧ view w' = view w0
    ∧ enriched genes pval_le hypergeom_sf
        locus_list pval_cutoff max_term_size names (view w') = Ok r.
Proof.
  rewrite enrichment_run.
  destruct (select_candidates _ _ w) as [[names|e] w0]; [|done].
  intros Hrun. exists names, w0. split; [done|].
  apply (reads_Ok _ _ _ _ _ (reads_tests _ _ _ _)) in Hrun as [Hpure Hview].
  split; [done|]. by rewrite Hview.
Qed.

(** A term that a lookup returns carries the id it was looked up by. *)
Lemma lookup_id name t (term : Term) :
  lookup genes name t = Ok term → Term.id term = name.
Proof.
  unfold lookup. intros Hl.
  destruct (term_by_id name t) as [[i d]|] eqn:Hrow; [|done].
  apply term_by_id_Some in Hrow as [Hfst _]. simpl in Hfst. subst i.
  destruct (mapM _ _); simpl in Hl; [|done]. by injection Hl as <-.
Qed.

End Reading.

(** ** Lookup, counts and the universe *)

Section StoreFacts.

Context {Locus : Type} `{Countable Locus}.
Variable genes : string → option Locus.
Context {pval : Type}.

(** A [SELECT] answers from the tables it sees whenever the backend lets
    the statement through. *)
Lemma select_value {A} (q : tables → A) w :
  budget w ≠ Some 0 → (select q w).1 = Ok (q (view w)).
Proof.
  intros Hb. destruct (reads_select q w) as (Hc & Hp & _ & [Ho|Ho]); [done|].
  exfalso. revert Ho. unfold select. rewrite bind_run.
  destruct (step_cases w) as [[_ Hb']|(b & -> & _)]; done.
Qed.

(** C4. Looking up an id that is not the id of a stored term fails with
    [NotFoundError] (the [TypeError] of [__getitem__]), whenever the
    statement reaches the tables. *)
Theorem getitem_not_found (w : database) (id : string) :
  id ∉ term_ids (view w) →
  budget w ≠ Some 0 →
  (getitem genes (pval := pval) id w).1 = Raise NotFoundError.
Proof.
  intros Hid Hb. unfold getitem. rewrite bind_run.
  pose proof (select_value (term_by_id id) w Hb) as Hs.
  destruct (select (term_by_id id) w) as [[row|e] w1]; simpl in Hs; [|done].
  injection Hs as ->.
  apply term_by_id_None in Hid. rewrite Hid. reflexivity.
Qed.

(** C5. [num_distinct_loci] returns the number of distinct locus ids of
    the association rows; the number is the same for any order of the
    rows, and inserting an association row that is already there does not
    change it. *)
Theorem num_distinct_loci_universe :
  (∀ w, budget w ≠ Some 0 →
     (num_distinct_loci w).1
     = Ok (size (list_to_set (term_loci (view w)).*2 : gset string)))
  ∧ (∀ w1 w2, budget w1 ≠ Some 0 → budget w2 ≠ Some 0 →
       term_loci (view w1) ≡ₚ term_loci (view w2) →
       (num_distinct_loci w1).1 = (num_distinct_loci w2).1)
  ∧ (∀ w term id, budget w = None →
       (term, id) ∈ term_loci (view w) →
       (insert_term_locus term id ;; num_distinct_loci) w
       = ((num_distinct_loci w).1, (insert_term_locus term id w).2)).
Proof.
  assert (Hcount : ∀ w, budget w ≠ Some 0 →
            (num_distinct_loci w).1
            = Ok (size (list_to_set (term_loci (view w)).*2 : gset string))).
  { intros w Hb. unfold num_distinct_loci. rewrite select_value by done.
    unfold count_distinct_loci. by rewrite length_distinct. }
  split; [exact Hcount|]. split.
  - intros w1 w2 Hb1 Hb2 Hperm. rewrite !Hcount by done. do 2 f_equal.
    apply set_eq. intros x. rewrite !elem_of_list_to_set.
    by rewrite Hperm.
  - intros w term id Hb Hin.
    rewrite bind_run, insert_term_locus_healthy by done.
    unfold num_distinct_loci.
    rewrite !select_healthy by (by rewrite ?budget_written).
    simpl. do 2 f_equal.
    unfold count_distinct_loci. rewrite !length_distinct, view_written.
    f_equal. apply set_eq. intros x. simpl.
    rewrite !elem_of_list_to_set, fmap_app, elem_of_app. simpl.
    split; [|by left]. intros [Hx|Hx]; [done|].
    apply list_elem_of_singleton in Hx as ->.
    apply list_elem_of_fmap. by exists (term, id).
Qed.

End StoreFacts.

(** ** Enrichment *)

Section EnrichmentFacts.

Context {Locus : Type} `{Countable Locus}.
Variable locus_id : Locus → string.
Variable genes : string → option Locus.
Context {pval : Type}.
Variable pval_le : pval → pval → bool.
Variable hypergeom_sf : nat → nat → nat → nat → pval.
Variable sqlite_other :
  string → tables → option tables → outcome (list string) * (tables * option tables).

Abbreviation Term := (Term.t Locus pval).

(** Python's [s.intersection(l)] is the intersection with [l] as a set. *)
Lemma intersection_set (s : gset Locus) (l : list Locus) :
  intersection s l = s ∩ list_to_set l.
Proof.
  unfold intersection. apply set_eq. intros x.
  rewrite elem_of_list_to_set, list_elem_of_filter, elem_of_intersection,
    elem_of_list_to_set.
  done.
Qed.

(** The terms the loop has collected after going through [terms]. *)
Lemma elem_of_tested locus_list pval_cutoff max_term_size t acc terms
    (term : Term) :
  term ∈ foldl (tested genes pval_le hypergeom_sf
      locus_list pval_cutoff max_term_size t) acc terms
  ↔ term ∈ acc
    ∨ ∃ term0,
        term0 ∈ terms
        ∧ (Z.of_nat (size (membership genes t (Term.id term0))) ≤ max_term_size)%Z
        ∧ pval_le (pval_of genes hypergeom_sf
            locus_list t (Term.id term0)) pval_cutoff = true
        ∧ term = Term.set_attr "pval" (pval_of genes hypergeom_sf
            locus_list t (Term.id term0)) term0.
Proof.
  revert acc. induction terms as [|x terms IH]; intros acc; simpl.
  - split; [by left|]. intros [?|(? & Hin & _)]; [done|].
    by apply not_elem_of_nil in Hin.
  - rewrite IH. unfold tested. split.
    + intros [Hacc|(term0 & Hin & Hrest)].
      * case_bool_decide as Hsz; [by left|].
        destruct (pval_le _ _) eqn:Hp; [|by left].
        apply elem_of_app in Hacc as [Hacc|Hx]; [by left|].
        apply list_elem_of_singleton in Hx. right. exists x.
        split; [by left|]. split; [lia|]. done.
      * right. exists term0. split; [by right|done].
    + intros [Hacc|(term0 & Hin & Hsz & Hp & ->)].
      * left. case_bool_decide; [done|].
        destruct (pval_le _ _); [|done]. apply elem_of_app. by left.
      * apply elem_of_cons in Hin as [->|Hin].
        -- left. rewrite bool_decide_eq_false_2 by lia. rewrite Hp.
           apply elem_of_app. right. by left.
        -- right. by exists term0.
Qed.

(** The terms [enrichment] returns are the candidates that pass both
    thresholds, on the tables at the end of the call. *)
Lemma enrichment_returns locus_list pval_cutoff max_term_size w r w' :
  enrichment locus_id genes pval_le hypergeom_sf sqlite_other
      locus_list pval_cutoff max_term_size w = (Ok r, w') →
  ∃ names w0,
    select_candidates sqlite_other (in_operand locus_id locus_list) w
    = (Ok names, w0)
    ∧ view w' = view w0
    ∧ ∀ term,
        term ∈ r
        ↔ ∃ term0,
            Term.id term0 ∈ names
            ∧ lookup genes (Term.id term0) (view w') = Ok term0
            ∧ (Z.of_nat (size (membership genes (view w') (Term.id term0)))
               ≤ max_term_size)%Z
            ∧ pval_le (pval_of genes hypergeom_sf
                locus_list (view w') (Term.id term0)) pval_cutoff = true
            ∧ term = Term.set_attr "pval"
                       (pval_of genes hypergeom_sf
                           locus_list (view w') (Term.id term0)) term0.
Proof.
  intros Hrun.
  destruct (enrichment_Ok _ _ _ _ _ _ _ _ _ _ _ Hrun)
    as (names & w0 & Hq & Hview & Hpure).
  exists names, w0. split; [done|]. split; [done|].
  unfold enriched in Hpure.
  destruct (mapM _ names) as [terms|e] eqn:Hterms; simpl in Hpure; [|done].
  injection Hpure as <-.
  apply mapM_Ok in Hterms.
  intros term. rewrite elem_of_tested. split.
  - intros [Hin|(term0 & Hin & Hsz & Hp & ->)].
    { by apply not_elem_of_nil in Hin. }
    apply list_elem_of_lookup in Hin as [i Hi].
    destruct (Forall2_lookup_r _ _ _ _ _ Hterms Hi) as (name & Hname & Hl).
    pose proof (lookup_id _ _ _ _ Hl) as Hid.
    exists term0. subst name. repeat split; try done.
    apply list_elem_of_lookup. by exists i.
  - intros (term0 & Hin & Hl & Hsz & Hp & ->). right.
    exists term0. repeat split; try done.
    apply list_elem_of_lookup in Hin as [i Hi].
    destruct (Forall2_lookup_l _ _ _ _ _ Hterms Hi) as (term1 & Hterm1 & Hl1).
    rewrite Hl in Hl1. injection Hl1 as <-.
    apply list_elem_of_lookup. by exists i.
Qed.

(** With an operand that is a list of string literals, [enrichment]
    leaves the tables as it found them. *)
Lemma enrichment_view locus_list pval_cutoff max_term_size w :
  is_Some (in_list (in_operand locus_id locus_list)) →
  view (enrichment locus_id genes pval_le hypergeom_sf sqlite_other
          locus_list pval_cutoff max_term_size w).2 = view w.
Proof.
  intros [vals Hv].
  destruct (reads_enrichment locus_id genes pval_le hypergeom_sf sqlite_other
              locus_list pval_cutoff max_term_size vals Hv w)
    as (Hc & Hp & _).
  by apply view_eq.
Qed.

Lemma select_run {A} (q : tables → A) w :
  budget w ≠ Some 0 →
  ∃ w1, select q w = (Ok (q (view w)), w1) ∧ view w1 = view w.
Proof.
  intros Hb. unfold select. rewrite bind_run.
  destruct (step_cases w) as [[_ Hb']|(b & -> & _)]; [done|].
  eexists. split; [reflexivity|]. done.
Qed.

(** C7. A term whose resolved membership is larger than [max_term_size]
    is in no result of [enrichment], whatever its overlap with
    [locus_list]; the loop passes over such a term without raising and
    without touching the list it builds.  The membership is read from the
    tables the loop works on, those at the end of the call, which are the
    tables at its start when the operand is a list of string literals. *)
Theorem enrichment_max_term_size locus_list pval_cutoff max_term_size :
  (∀ w r w' term,
     enrichment locus_id genes pval_le hypergeom_sf sqlite_other
         locus_list pval_cutoff max_term_size w = (Ok r, w') →
     term ∈ r →
     (Z.of_nat (size (membership genes (view w') (Term.id term)))
      ≤ max_term_size)%Z
     ∧ (is_Some (in_list (in_operand locus_id locus_list)) →
        (Z.of_nat (size (membership genes (view w) (Term.id term)))
         ≤ max_term_size)%Z))
  ∧ (∀ w acc term,
       budget w ≠ Some 0 →
       (max_term_size
        < Z.of_nat (size (membership genes (view w) (Term.id term))))%Z →
       (test_term genes pval_le hypergeom_sf
           locus_list pval_cutoff max_term_size acc term w).1 = Ok acc).
Proof.
  split.
  - intros w r w' term Hrun Hin.
    destruct (enrichment_returns _ _ _ _ _ _ Hrun)
      as (names & w0 & _ & _ & Hr).
    destruct (proj1 (Hr term) Hin) as (term0 & _ & _ & Hsz & _ & ->).
    split; [exact Hsz|]. intros Hlit.
    pose proof (enrichment_view locus_list pval_cutoff max_term_size w Hlit)
      as Hview.
    rewrite Hrun in Hview. simpl in Hview. by rewrite <- Hview.
  - intros w acc term Hb Hsz. unfold test_term. rewrite bind_run.
    destruct (select_run (loci_of_term (Term.id term)) w Hb) as (w1 & -> & _).
    unfold membership in Hsz. by rewrite bool_decide_eq_true_2.
Qed.

(** C9. For every candidate term, [enrichment] computes [num_common] as
    the size of the intersection of the term's resolved membership with
    [locus_list] taken as a set, and [num_sampled] as the length of
    [locus_list]:
    - the terms a call returns are exactly the candidates within
      [max_term_size] whose [hypergeom.sf] at these counts is within the
      cutoff, each with that value as its ["pval"];
    - when an entry of [locus_list] is given once more, every candidate is
      tested with the same [num_common] and with [num_sampled] one larger;
    - on a healthy backend, one turn of the loop returns the list it was
      given, with the candidate appended when it passes at these counts. *)
Theorem enrichment_counts locus_list pval_cutoff max_term_size :
  (∀ w r w',
     enrichment locus_id genes pval_le hypergeom_sf sqlite_other
         locus_list pval_cutoff max_term_size w = (Ok r, w') →
     ∃ names w0,
       select_candidates sqlite_other (in_operand locus_id locus_list) w
       = (Ok names, w0)
       ∧ ∀ term,
           term ∈ r
           ↔ ∃ term0,
               Term.id term0 ∈ names
               ∧ lookup genes (Term.id term0) (view w') = Ok term0
               ∧ (Z.of_nat (size (membership genes (view w') (Term.id term0)))
                  ≤ max_term_size)%Z
               ∧ pval_le
                   (hypergeom_sf
                      (size (membership genes (view w') (Term.id term0)
                             ∩ list_to_set locus_list))
                      (count_distinct_loci (view w'))
                      (size (membership genes (view w') (Term.id term0)))
                      (length locus_list)) pval_cutoff = true
               ∧ term = Term.set_attr "pval"
                   (hypergeom_sf
                      (size (membership genes (view w') (Term.id term0)
                             ∩ list_to_set locus_list))
                      (count_distinct_loci (view w'))
                      (size (membership genes (view w') (Term.id term0)))
                      (length locus_list)) term0)
  ∧ (∀ locus w r w',
       locus ∈ locus_list →
       enrichment locus_id genes pval_le hypergeom_sf sqlite_other
           (locus :: locus_list) pval_cutoff max_term_size w = (Ok r, w') →
       ∃ names w0,
         select_candidates sqlite_other
             (in_operand locus_id (locus :: locus_list)) w
         = (Ok names, w0)
         ∧ ∀ term,
             term ∈ r
             ↔ ∃ term0,
                 Term.id term0 ∈ names
                 ∧ lookup genes (Term.id term0) (view w') = Ok term0
                 ∧ (Z.of_nat (size (membership genes (view w') (Term.id term0)))
                    ≤ max_term_size)%Z
                 ∧ pval_le
                     (hypergeom_sf
                        (size (membership genes (view w') (Term.id term0)
                               ∩ list_to_set locus_list))
                        (count_distinct_loci (view w'))
                        (size (membership genes (view w') (Term.id term0)))
                        (S (length locus_list))) pval_cutoff = true
                 ∧ term = Term.set_attr "pval"
                     (hypergeom_sf
                        (size (membership genes (view w') (Term.id term0)
                               ∩ list_to_set locus_list))
                        (count_distinct_loci (view w'))
                        (size (membership genes (view w') (Term.id term0)))
                        (S (length locus_list))) term0)
  ∧ (∀ w acc term,
       budget w = None →
       test_term genes pval_le hypergeom_sf
           locus_list pval_cutoff max_term_size acc term w
       = (Ok
            (if bool_decide
                  (max_term_size
                   < Z.of_nat (size (membership genes (view w) (Term.id term))))%Z
             then acc
             else if pval_le
                       (hypergeom_sf
                          (size (membership genes (view w) (Term.id term)
                                 ∩ list_to_set locus_list))
                          (count_distinct_loci (view w))
                          (size (membership genes (view w) (Term.id term)))
                          (length locus_list)) pval_cutoff
             then acc
                    ++ [Term.set_attr "pval"
                          (hypergeom_sf
                             (size (membership genes (view w) (Term.id term)
                                    ∩ list_to_set locus_list))
                             (count_distinct_loci (view w))
                             (size (membership genes (view w) (Term.id term)))
                             (length locus_list)) term]
             else acc), w))
  ∧ (∀ w r w' term,
       enrichment locus_id genes pval_le hypergeom_sf sqlite_other
           locus_list pval_cutoff max_term_size w = (Ok r, w') →
       term ∈ r →
       Term.attrs term !! "pval"
       = Some (hypergeom_sf
                 (size (membership genes (view w') (Term.id term)
                        ∩ list_to_set locus_list))
                 (count_distinct_loci (view w'))
                 (size (membership genes (view w') (Term.id term)))
                 (length locus_list)))
  ∧ (∀ locus w r w' term,
       locus ∈ locus_list →
       enrichment locus_id genes pval_le hypergeom_sf sqlite_other
           (locus :: locus_list) pval_cutoff max_term_size w
       = (Ok r, w') →
       term ∈ r →
       Term.attrs term !! "pval"
       = Some (hypergeom_sf
                 (size (membership genes (view w') (Term.id term)
                        ∩ list_to_set locus_list))
                 (count_distinct_loci (view w'))
                 (size (membership genes (view w') (Term.id term)))
                 (S (length locus_list)))).
Proof.
  assert (Hall : ∀ ll w r w',
            enrichment locus_id genes pval_le hypergeom_sf sqlite_other
                ll pval_cutoff max_term_size w = (Ok r, w') →
            ∃ names w0,
              select_candidates sqlite_other (in_operand locus_id ll) w
              = (Ok names, w0)
              ∧ ∀ term,
                  term ∈ r
                  ↔ ∃ term0,
                      Term.id term0 ∈ names
                      ∧ lookup genes (Term.id term0) (view w') = Ok term0
                      ∧ (Z.of_nat
                           (size (membership genes (view w') (Term.id term0)))
                         ≤ max_term_size)%Z
                      ∧ pval_le
                          (hypergeom_sf
                             (size (membership genes (view w') (Term.id term0)
                                    ∩ list_to_set ll))
                             (count_distinct_loci (view w'))
                             (size (membership genes (view w') (Term.id term0)))
                             (length ll)) pval_cutoff = true
                      ∧ term = Term.set_attr "pval"
                          (hypergeom_sf
                             (size (membership genes (view w') (Term.id term0)
                                    ∩ list_to_set ll))
                             (count_distinct_loci (view w'))
                             (size (membership genes (view w') (Term.id term0)))
                             (length ll)) term0).
  { intros ll w r w' Hrun.
    destruct (enrichment_returns _ _ _ _ _ _ Hrun)
      as (names & w0 & Hq & _ & Hr).
    exists names, w0. split; [done|]. intros term. rewrite Hr.
    unfold pval_of. by setoid_rewrite intersection_set. }
  assert (Hset : ∀ locus, locus ∈ locus_list →
            (list_to_set (locus :: locus_list) : gset Locus)
            = list_to_set locus_list).
  { intros locus Hl. apply set_eq. intros x.
    rewrite !elem_of_list_to_set, elem_of_cons. naive_solver. }
  assert (Hattr : ∀ ll w r w' term,
            enrichment locus_id genes pval_le hypergeom_sf sqlite_other
                ll pval_cutoff max_term_size w = (Ok r, w') →
            term ∈ r →
            Term.attrs term !! "pval"
            = Some (hypergeom_sf
                      (size (membership genes (view w') (Term.id term)
                             ∩ list_to_set ll))
                      (count_distinct_loci (view w'))
                      (size (membership genes (view w') (Term.id term)))
                      (length ll))).
  { intros ll w r w' term Hrun Hin.
    destruct (Hall _ _ _ _ Hrun) as (names & w0 & _ & Hr).
    destruct (proj1 (Hr term) Hin) as (term0 & _ & _ & _ & _ & ->).
    simpl. by rewrite lookup_insert_eq. }
  split; [apply Hall|]. split; [|split; [|split; [apply Hattr|]]].
  - intros locus w r w' Hl Hrun.
    destruct (Hall _ _ _ _ Hrun) as (names & w0 & Hq & Hr).
    exists names, w0. split; [done|]. intros term. rewrite Hr.
    by rewrite (Hset locus Hl).
  - intros w acc term Hb.
    destruct (reads_test_term genes pval_le hypergeom_sf locus_list
                pval_cutoff max_term_size acc term w) as (_ & _ & Hh & _).
    rewrite (Hh Hb). unfold tested, pval_of.
    by rewrite intersection_set.
  - intros locus w r w' term Hl Hrun Hin.
    rewrite (Hattr _ _ _ _ _ Hrun Hin), (Hset locus Hl). done.
Qed.




End EnrichmentFacts.

(** ** The methods that write, on a healthy backend *)

Section Writing.

Context {Locus : Type} `{Countable Locus}.
Variable locus_id : Locus → string.
Variable genes : string → option Locus.
Context {pval : Type}.

Abbreviation Term := (Term.t Locus pval).

Lemma written_ext f g w : f (view w) = g (view w) → written f w = written g w.
Proof. unfold written, write, view. destruct (pending w); simpl; congruence. Qed.

Lemma written_written f g w : written g (written f w) = written (g ∘ f) w.
Proof. unfold written, write. by destruct (pending w). Qed.

Lemma written_id w : written (λ t, t) w = w.
Proof. unfold written, write. by destruct w as [c [t|] b]. Qed.

Lemma begin_healthy c p :
  begin_transaction (Database c p None)
  = match p with
    | Some _ => (Raise SQLError, Database c p None)
    | None => (Ok (), Database c (Some c) None)
    end.
Proof. by destruct p. Qed.

Lemma end_healthy c p :
  end_transaction (Database c p None)
  = match p with
    | Some t => (Ok (), Database t None None)
    | None => (Raise SQLError, Database c p None)
    end.
Proof. by destruct p. Qed.

Lemma insert_term_healthy id desc w :
  budget w = None →
  insert_term id desc w
  = if decide (id ∈ term_ids (view w)) then (Raise ConstraintError, w)
    else (Ok (), written (with_term id desc) w).
Proof.
  intros Hb. unfold insert_term. rewrite bind_run, step_healthy by done.
  unfold action. case_decide; [done|]. apply write_run.
Qed.

Lemma delete_term_healthy id w :
  budget w = None → delete_term id w = (Ok (), written (deleted id) w).
Proof.
  intros Hb. unfold delete_term.
  rewrite bind_run, step_healthy by done.
  rewrite bind_run, write_run.
  rewrite bind_run, step_healthy by (by rewrite budget_written).
  by rewrite write_run, written_written.
Qed.

Lemma for_each_insert_healthy (id : string) (l : list Locus) w :
  budget w = None →
  for_each (λ locus, insert_term_locus id (locus_id locus)) l w
  = (Ok (), written (with_rows ((λ locus, (id, locus_id locus)) <$> l)) w).
Proof.
  revert w. induction l as [|x l IH]; intros w Hb; simpl.
  - rewrite <- (written_id w) at 1. f_equal. apply written_ext.
    unfold with_rows. destruct (view w). simpl. by rewrite app_nil_r.
  - rewrite bind_run, insert_term_locus_healthy by done.
    rewrite IH by (by rewrite budget_written).
    rewrite written_written. f_equal. apply written_ext.
    unfold with_rows, with_term_locus. simpl. by rewrite <- app_assoc.
Qed.

Lemma loci_guard {A} (f : A → M unit) (l : list A) :
  match l with
  | [] => mret ()
  | _ :: _ => for_each f l
  end = for_each f l.
Proof. by destruct l. Qed.

Lemma ret_bind_run {A B} (a : A) (k : A → M B) w : (mret a ≫= k) w = k a w.
Proof. reflexivity. Qed.

Lemma bind_ret_run (m : M ()) w : (m ≫= λ _, mret ()) w = m w.
Proof. rewrite bind_run. by destruct (m w) as [[[]|e] w']. Qed.

(** [del_term] on a healthy backend. *)
Lemma del_term_healthy (term : Term + string) cursor c p :
  del_term term cursor (Database c p None)
  = let id := match term with inl t => Term.id t | inr s => s end in
    match cursor, p with
    | None, Some _ => (Raise SQLError, Database c p None)
    | None, None => (Ok (), Database (deleted id c) None None)
    | Some _, _ => (Ok (), written (deleted id) (Database c p None))
    end.
Proof.
  unfold del_term. destruct cursor as [cur|]; simpl.
  - rewrite ret_bind_run, bind_run, delete_term_healthy by done.
    done.
  - rewrite bind_run, begin_healthy. destruct p as [t|]; [done|].
    rewrite bind_run, delete_term_healthy by done.
    done.
Qed.

(** [add_term] on a healthy backend, without [overwrite]. *)
Lemma add_term_healthy (term : Term) cursor c p :
  add_term locus_id term cursor false (Database c p None)
  = match cursor, p with
    | None, Some _ => (Raise SQLError, Database c p None)
    | None, None =>
        if decide (Term.id term ∈ term_ids c)
        then (Raise ConstraintError, Database c (Some c) None)
        else (Ok (), Database (added locus_id term c) None None)
    | Some _, _ =>
        if decide (Term.id term ∈ term_ids (view (Database c p None)))
        then (Raise ConstraintError, Database c p None)
        else (Ok (), written (added locus_id term) (Database c p None))
    end.
Proof.
  unfold add_term. rewrite loci_guard, ret_bind_run.
  destruct cursor as [cur|]; simpl.
  - rewrite ret_bind_run, bind_run, insert_term_healthy by done.
    destruct (decide _); simpl; [done|].
    rewrite bind_ret_run, for_each_insert_healthy by (by rewrite budget_written).
    rewrite written_written. done.
  - rewrite bind_run, begin_healthy.
    destruct p as [t|]; [done|].
    rewrite bind_run, insert_term_healthy by done.
    unfold view at 1. simpl.
    destruct (decide _); simpl; [done|].
    rewrite bind_run, for_each_insert_healthy by done.
    done.
Qed.

(** [add_term] with [overwrite] first runs [del_term(term.id)], which
    opens a transaction of its own. *)
Lemma add_term_overwrite_healthy (term : Term) cursor c p :
  add_term locus_id term cursor true (Database c p None)
  = match p with
    | Some _ => (Raise SQLError, Database c p None)
    | None =>
        add_term locus_id term cursor false
          (Database (deleted (Term.id term) c) None None)
    end.
Proof.
  unfold add_term. rewrite bind_run, del_term_healthy.
  destruct p as [t|]; simpl; [done|]. by rewrite ret_bind_run.
Qed.

Lemma loci_of_term_fresh id t :
  store_inv t → id ∉ term_ids t → loci_of_term id t = [].
Proof.
  intros Hinv Hid. unfold loci_of_term.
  rewrite filter_none; [done|].
  intros row Hrow Heq. apply Hid. rewrite <- Heq. by apply Hinv.
Qed.

Lemma loci_of_term_deleted id t : loci_of_term id (deleted id t) = [].
Proof.
  unfold loci_of_term, deleted. simpl. rewrite filter_none; [done|].
  intros row Hrow Heq. by apply list_elem_of_filter in Hrow as [Hne _].
Qed.

Lemma term_ids_deleted id t : id ∉ term_ids (deleted id t).
Proof.
  unfold term_ids, deleted. simpl. intros Hin.
  apply list_elem_of_fmap in Hin as (row & Hrow & Hin).
  by apply list_elem_of_filter in Hin as [Hne _].
Qed.

(** What a successful [add_term] has done. *)
Lemma add_term_Ok (term : Term) cursor overwrite w w' :
  budget w = None →
  add_term locus_id term cursor overwrite w = (Ok (), w') →
  let v := if overwrite then deleted (Term.id term) (view w) else view w in
  (Term.id term ∉ term_ids v)
  ∧ view w' = added locus_id term v
  ∧ budget w' = None
  ∧ (cursor = None → pending w' = None).
Proof.
  intros Hb Hrun v.
  destruct w as [c p b]. simpl in Hb. subst b.
  assert (Hfalse : ∀ c p,
            add_term locus_id term cursor false (Database c p None) = (Ok (), w') →
            (Term.id term ∉ term_ids (view (Database c p None)))
            ∧ view w' = added locus_id term (view (Database c p None))
            ∧ budget w' = None
            ∧ (cursor = None → pending w' = None)).
  { clear. intros c p. rewrite add_term_healthy.
    destruct cursor as [cur|], p as [t|]; simpl;
      try destruct (decide _); try done;
      intros [= <-]; rewrite ?view_written, ?budget_written; done. }
  destruct overwrite.
  - rewrite add_term_overwrite_healthy in Hrun.
    destruct p as [t|]; [done|]. apply Hfalse in Hrun. exact Hrun.
  - apply Hfalse in Hrun. exact Hrun.
Qed.

Lemma mapM_resolve_known (l : list Locus) :
  (∀ locus, locus ∈ l → genes (locus_id locus) = Some locus) →
  mapM (resolve genes) (locus_id <$> l) = Ok l.
Proof.
  induction l as [|x l IH]; intros Hl; [done|].
  rewrite fmap_cons.
  change (mapM (resolve genes) (locus_id x :: (locus_id <$> l)))
    with (y ← resolve genes (locus_id x);
          ys ← mapM (resolve genes) (locus_id <$> l); mret (y :: ys)).
  assert (Hx : resolve genes (locus_id x) = Ok x).
  { unfold resolve. rewrite (Hl x); [done|left]. }
  rewrite Hx, IH; [done|]. intros y Hy. apply Hl. by right.
Qed.

Lemma term_by_id_added (term : Term) v :
  Term.id term ∉ term_ids v →
  term_by_id (Term.id term) (added locus_id term v)
  = Some (Term.id term, Term.desc term).
Proof.
  intros Hid. unfold term_by_id, added. simpl.
  rewrite filter_app, filter_none; [by rewrite filter_cons_True|].
  intros row Hrow Heq. apply Hid, list_elem_of_fmap. by exists row.
Qed.

Lemma loci_of_term_added (term : Term) v :
  loci_of_term (Term.id term) (added locus_id term v)
  = loci_of_term (Term.id term) v ++ (locus_id <$> Term.loci term).
Proof.
  unfold loci_of_term, added, rows_of. simpl.
  rewrite filter_app, fmap_app. f_equal.
  induction (Term.loci term) as [|x l IH]; [done|].
  rewrite !fmap_cons, filter_cons_True by done.
  rewrite fmap_cons. simpl. by rewrite IH.
Qed.

(** C1. After [add_term] has inserted a term whose loci the reference
    genome knows (each locus is what its id resolves to), looking up the
    term's id returns a term with that id, that description and those
    loci. *)
Theorem add_term_getitem (term : Term) cursor overwrite w w' :
  budget w = None →
  store_inv (view w) →
  (∀ locus, locus ∈ Term.loci term → genes (locus_id locus) = Some locus) →
  add_term locus_id term cursor overwrite w = (Ok (), w') →
  ∃ term' : Term,
    getitem genes (Term.id term) w' = (Ok term', w')
    ∧ Term.id term' = Term.id term
    ∧ Term.desc term' = Term.desc term
    ∧ (list_to_set (Term.loci term') : gset Locus)
      = list_to_set (Term.loci term).
Proof.
  intros Hb Hinv Hknown Hrun.
  destruct (add_term_Ok _ _ _ _ _ Hb Hrun) as (Hid & Hview & Hb' & _).
  exists (Term.Build (Term.id term) (Term.desc term) (Term.loci term) ∅).
  split; [|done].
  destruct (reads_getitem genes (pval := pval) (Term.id term) w')
    as (_ & _ & Hget & _).
  rewrite (Hget Hb'). f_equal. rewrite Hview. unfold lookup.
  rewrite term_by_id_added by done.
  rewrite loci_of_term_added.
  assert (Hnone : loci_of_term (Term.id term)
                    (if overwrite then deleted (Term.id term) (view w)
                     else view w) = []).
  { destruct overwrite; [apply loci_of_term_deleted|].
    by apply loci_of_term_fresh. }
  rewrite Hnone. simpl. by rewrite mapM_resolve_known.
Qed.

(** C2. After [add_term] has inserted a term, inserting a term with the
    same id without [overwrite] raises [DuplicateTermError] (the
    [ConstraintError] of [INSERT OR ABORT]) and [len] is what it was.  The
    second call is made the way the docstring of [add_term] asks: without
    a cursor only outside of a transaction, which is where a first call
    without a cursor leaves the connection. *)
Theorem add_term_duplicate (term term2 : Term) cursor overwrite cursor2 w w1 :
  budget w = None →
  add_term locus_id term cursor overwrite w = (Ok (), w1) →
  Term.id term2 = Term.id term →
  (cursor2 = None → pending w1 = None) →
  ∃ w2 n,
    add_term locus_id term2 cursor2 false w1 = (Raise DuplicateTermError, w2)
    ∧ len w1 = (Ok n, w1)
    ∧ len w2 = (Ok n, w2).
Proof.
  intros Hb Hrun Hid Hcur.
  destruct (add_term_Ok _ _ _ _ _ Hb Hrun) as (_ & Hview & Hb1 & _).
  assert (Hin : Term.id term2 ∈ term_ids (view w1)).
  { rewrite Hview, Hid. unfold term_ids, added. simpl.
    rewrite fmap_app. apply elem_of_app. right. by left. }
  destruct w1 as [c1 p1 b1]. simpl in Hb1. subst b1.
  rewrite add_term_healthy. unfold len.
  destruct cursor2 as [cur2|].
  - rewrite decide_True by done.
    eexists _, _. split; [reflexivity|].
    split; by rewrite select_healthy.
  - simpl in Hcur. rewrite Hcur in * by done. unfold view in Hin. simpl in Hin.
    rewrite decide_True by done.
    eexists _, _. split; [reflexivity|].
    split; by rewrite select_healthy.
Qed.

Lemma getitem_healthy id w :
  budget w = None →
  getitem genes (pval := pval) id w = (lookup genes id (view w), w).
Proof.
  intros Hb. by destruct (reads_getitem genes (pval := pval) id w)
    as (_ & _ & -> & _).
Qed.

(** The first error of a list of resolutions is an unknown id. *)
Lemma resolve_all_error ids e :
  mapM (resolve genes) ids = Raise e → e = NotFoundError.
Proof.
  induction ids as [|i ids IH]; [done|].
  change (mapM (resolve genes) (i :: ids))
    with (y ← resolve genes i; ys ← mapM (resolve genes) ids; mret (y :: ys)).
  destruct (resolve genes i) as [y|e'] eqn:Hy; simpl.
  - destruct (mapM (resolve genes) ids); simpl; [done|].
    intros [= <-]. by apply IH.
  - intros [= <-]. unfold resolve in Hy. destruct (genes i); congruence.
Qed.





End Writing.

(** ** The parameters of [enrichment] *)

Section EnrichmentParameters.

Context {Locus : Type} `{Countable Locus}.
Variable locus_id : Locus → string.
Variable genes : string → option Locus.
Context {pval : Type}.
Variable pval_le : pval → pval → bool.
Variable hypergeom_sf : nat → nat → nat → nat → pval.
Variable sqlite_other :
  string → tables → option tables → outcome (list string) * (tables * option tables).

(** [enrichment] on a healthy backend: the candidate query, then the
    tests on the tables it leaves. *)
Lemma enrichment_healthy locus_list pval_cutoff max_term_size w :
  budget w = None →
  enrichment locus_id genes pval_le hypergeom_sf sqlite_other
    locus_list pval_cutoff max_term_size w
  = match select_candidates sqlite_other (in_operand locus_id locus_list) w with
    | (Ok names, w0) =>
        (enriched genes pval_le hypergeom_sf
           locus_list pval_cutoff max_term_size names (view w0), w0)
    | (Raise e, w0) => (Raise e, w0)
    end.
Proof.
  intros Hb. rewrite enrichment_run.
  pose proof (select_candidates_budget sqlite_other
                (in_operand locus_id locus_list) w Hb) as Hb0.
  destruct (select_candidates _ _ w) as [[names|e] w0]; [|done].
  by destruct (reads_tests genes pval_le hypergeom_sf
                 locus_list pval_cutoff max_term_size names w0)
    as (_ & _ & -> & _).
Qed.

(** C10. [enrichment] does not look at the sign of [pval_cutoff] or of
    [max_term_size].  On a healthy backend, an error it raises for some
    values of the two it raises for all values; when it returns, every
    term it returns is within the two bounds, so a negative
    [max_term_size] gives the empty list.  The membership of a term is
    read from the tables the loop works on, those at the end of the call,
    which are the tables at its start when the operand is a list of string
    literals. *)
Theorem enrichment_unvalidated locus_list pval_cutoff max_term_size w :
  budget w = None →
  (∀ pval_cutoff' max_term_size' e,
     (enrichment locus_id genes pval_le hypergeom_sf sqlite_other
        locus_list pval_cutoff max_term_size w).1 = Raise e →
     (enrichment locus_id genes pval_le hypergeom_sf sqlite_other
        locus_list pval_cutoff' max_term_size' w).1 = Raise e)
  ∧ (∀ r,
       (enrichment locus_id genes pval_le hypergeom_sf sqlite_other
          locus_list pval_cutoff max_term_size w).1 = Ok r →
       (∀ term, term ∈ r →
          (Z.of_nat
             (size (membership genes
                      (view (enrichment locus_id genes pval_le hypergeom_sf
                               sqlite_other
                               locus_list pval_cutoff max_term_size w).2)
                      (Term.id term)))
           ≤ max_term_size)%Z
          ∧ (is_Some (in_list (in_operand locus_id locus_list)) →
             (Z.of_nat (size (membership genes (view w) (Term.id term)))
              ≤ max_term_size)%Z)
          ∧ ∃ p, Term.attrs term !! "pval" = Some p
                 ∧ pval_le p pval_cutoff = true)
       ∧ ((max_term_size < 0)%Z → r = [])).
Proof.
  intros Hb. split.
  - intros c' m' e. rewrite !enrichment_healthy by done.
    destruct (select_candidates _ _ w) as [[names|e'] w0]; simpl; [|done].
    unfold enriched.
    destruct (mapM _ names) as [terms|e']; simpl; done.
  - intros r Hr.
    assert (Hin : ∀ term, term ∈ r →
              (Z.of_nat
                 (size (membership genes
                          (view (enrichment locus_id genes pval_le hypergeom_sf
                                   sqlite_other
                                   locus_list pval_cutoff max_term_size w).2)
                          (Term.id term)))
               ≤ max_term_size)%Z
              ∧ (is_Some (in_list (in_operand locus_id locus_list)) →
                 (Z.of_nat (size (membership genes (view w) (Term.id term)))
                  ≤ max_term_size)%Z)
              ∧ ∃ p, Term.attrs term !! "pval" = Some p
                     ∧ pval_le p pval_cutoff = true).
    { intros term Hterm.
      pose proof (enrichment_view locus_id genes pval_le hypergeom_sf
                    sqlite_other locus_list pval_cutoff max_term_size w)
        as Hview.
      destruct (enrichment _ _ _ _ _ _ _ _ w) as [o w'] eqn:Hrun.
      simpl in Hr. subst o.
      destruct (enrichment_returns locus_id genes pval_le hypergeom_sf
                  sqlite_other _ _ _ _ _ _ Hrun)
        as (names & w0 & _ & _ & Hres).
      destruct (proj1 (Hres term) Hterm) as (term0 & _ & _ & Hsz & Hp & ->).
      simpl in *. split; [exact Hsz|]. split.
      - intros Hlit. by rewrite <- (Hview Hlit).
      - eexists. split; [|exact Hp]. by rewrite lookup_insert_eq. }
    split; [exact Hin|]. intros Hneg.
    destruct r as [|term r]; [done|].
    destruct (Hin term) as [Hsz _]; [left|]. lia.
Qed.

End EnrichmentParameters.


(** ** The operand of [IN] for plain ids *)

Section Operand.

Lemma append_assoc (a b c : string) : (a +:+ b) +:+ c = a +:+ (b +:+ c).
Proof.
  induction a as [|x a IH]; [done|].
  change (String x ((a +:+ b) +:+ c) = String x (a +:+ b +:+ c)).
  by rewrite IH.
Qed.

Lemma append_empty_r (a : string) : a +:+ "" = a.
Proof.
  induction a as [|x a IH]; [done|].
  change (String x (a +:+ "") = String x a). by rewrite IH.
Qed.

Lemma lex_plain s : ∀ lits cur rest,
  plain s = true →
  lex (InLiteral lits cur) (s +:+ rest) = lex (InLiteral lits (cur +:+ s)) rest.
Proof.
  induction s as [|c s IH]; intros lits cur rest Hs; simpl in *.
  - by rewrite append_empty_r.
  - case_decide; [done|]. rewrite IH by done.
    by rewrite append_assoc.
Qed.

Lemma lex_join ids : ∀ lits,
  ids ≠ [] →
  Forall (λ s, plain s = true) ids →
  lex (InLiteral lits "") (join "','" ids +:+ "')") = Some (lits ++ ids).
Proof.
  induction ids as [|x ids IH]; intros lits Hne Hplain; [done|].
  apply Forall_cons in Hplain as [Hx Hids].
  destruct ids as [|y ids].
  - simpl. rewrite lex_plain by done. reflexivity.
  - change (join "','" (x :: y :: ids))
      with (x +:+ "','" +:+ join "','" (y :: ids)).
    rewrite !append_assoc, lex_plain by done. simpl.
    rewrite IH by done. by rewrite <- app_assoc.
Qed.

End Operand.

Section Candidates.

Context {Locus : Type} `{Countable Locus}.
Variable locus_id : Locus → string.
Variable genes : string → option Locus.
Context {pval : Type}.
Variable pval_le : pval → pval → bool.
Variable hypergeom_sf : nat → nat → nat → nat → pval.
Variable sqlite_other :
  string → tables → option tables → outcome (list string) * (tables * option tables).

(** For a list of loci that is not empty and whose ids are plain, SQLite
    reads the ids back from the operand. *)
Lemma in_list_in_operand (locus_list : list Locus) :
  locus_list ≠ [] →
  Forall (λ locus, plain (locus_id locus) = true) locus_list →
  in_list (in_operand locus_id locus_list) = Some (locus_id <$> locus_list).
Proof.
  intros Hne Hplain. unfold in_list, in_operand.
  change (lex (InLiteral [] "")
            (join "','" (locus_id <$> locus_list) +:+ "')")
          = Some (locus_id <$> locus_list)).
  rewrite lex_join; [done| |].
  - by destruct locus_list.
  - by apply Forall_fmap.
Qed.

(** For such a list, every term [enrichment] returns has an association
    with the id of a locus of the list. *)
Lemma enrichment_overlap locus_list pval_cutoff max_term_size w r w' term :
  locus_list ≠ [] →
  Forall (λ locus, plain (locus_id locus) = true) locus_list →
  enrichment locus_id genes pval_le hypergeom_sf sqlite_other
    locus_list pval_cutoff max_term_size w = (Ok r, w') →
  term ∈ r →
  ∃ locus,
    locus ∈ locus_list
    ∧ locus_id locus ∈ loci_of_term (Term.id term) (view w).
Proof.
  intros Hne Hplain Hrun Hin.
  destruct (enrichment_returns _ _ _ _ _ _ _ _ _ _ _ Hrun)
    as (names & w0 & Hq & _ & Hres).
  destruct (proj1 (Hres term) Hin) as (term0 & Hname & _ & _ & _ & ->).
  apply (select_candidates_literal _ _ _ _ _ _
           (in_list_in_operand locus_list Hne Hplain)) in Hq as [-> _].
  unfold distinct_terms_in in Hname.
  apply elem_of_distinct, list_elem_of_fmap in Hname as (row & Hid & Hrow).
  apply list_elem_of_filter in Hrow as [Hval Hrow].
  apply list_elem_of_fmap in Hval as (locus & Hl & Hlocus).
  exists locus. split; [done|]. simpl.
  unfold loci_of_term. apply list_elem_of_fmap. exists row.
  split; [done|]. apply list_elem_of_filter. done.
Qed.

End Candidates.

(** ** The invariant of the store *)

Section Invariant.

Context {Locus : Type} `{Countable Locus}.
Variable locus_id : Locus → string.
Context {pval : Type}.

Lemma hoare_ret {A} (a : A) (Q : A → tables → Prop) E :
  hoare (Q a) (mret a) Q E.
Proof. intros w HP. exact HP. Qed.

Lemma hoare_bind {A B} (m : M A) (k : A → M B) P Q R E :
  hoare P m Q E → (∀ a, hoare (Q a) (k a) R E) → hoare P (m ≫= k) R E.
Proof.
  intros Hm Hk w HP. rewrite bind_run. specialize (Hm w HP).
  destruct (m w) as [[a|e] w1]; [|done]. by apply Hk.
Qed.

Lemma hoare_weaken {A} (m : M A) (P P' : tables → Prop) Q E :
  (∀ t, P' t → P t) → hoare P m Q E → hoare P' m Q E.
Proof. intros HP Hm w Hw. apply Hm, HP, Hw. Qed.

Lemma hoare_conseq {A} (m : M A) (P P' : tables → Prop)
    (Q Q' : A → tables → Prop) (E E' : tables → Prop) :
  (∀ t, P' t → P t) → (∀ a t, Q a t → Q' a t) → (∀ t, E t → E' t) →
  hoare P m Q E → hoare P' m Q' E'.
Proof.
  intros HP HQ HE Hm w Hw. specialize (Hm w (HP _ Hw)).
  destruct (m w) as [[a|e] w1]; auto.
Qed.

Lemma hoare_step (P : tables → Prop) : hoare P step (λ _, P) P.
Proof.
  intros w HP.
  destruct (step_cases w) as [[-> _]|(b & -> & _)]; exact HP.
Qed.

Lemma hoare_write f (Q : tables → Prop) E :
  hoare (λ t, Q (f t)) (write f) (λ _, Q) E.
Proof. intros w HP. by rewrite write_run, view_written. Qed.

Lemma hoare_begin (P : tables → Prop) : hoare P begin_transaction (λ _, P) P.
Proof.
  apply (hoare_bind _ _ P (λ _, P)); [apply hoare_step|].
  intros _ w HP. unfold action. by destruct w as [c [t|] b].
Qed.

Lemma hoare_end (P : tables → Prop) : hoare P end_transaction (λ _, P) P.
Proof.
  apply (hoare_bind _ _ P (λ _, P)); [apply hoare_step|].
  intros _ w HP. unfold action. by destruct w as [c [t|] b].
Qed.

Lemma hoare_insert_term id desc (P Q : tables → Prop) :
  (∀ t, P t → id ∉ term_ids t → Q (with_term id desc t)) →
  hoare P (insert_term id desc) (λ _, Q) P.
Proof.
  intros HQ.
  apply (hoare_bind _ _ P (λ _, P)); [apply hoare_step|].
  intros _ w HP. unfold action. case_decide; [done|].
  rewrite write_run, view_written. by apply HQ.
Qed.

Lemma hoare_insert_term_locus term id (P : tables → Prop) :
  (∀ t, P t → P (with_term_locus term id t)) →
  hoare P (insert_term_locus term id) (λ _, P) P.
Proof.
  intros HQ.
  apply (hoare_bind _ _ P (λ _, P)); [apply hoare_step|].
  intros _. eapply hoare_weaken; [|apply hoare_write]. exact HQ.
Qed.

Lemma hoare_for_each {A} (body : A → M ()) (l : list A) (P : tables → Prop) :
  (∀ x, hoare P (body x) (λ _, P) P) →
  hoare P (for_each body l) (λ _, P) P.
Proof.
  intros Hbody. induction l as [|x l IH]; simpl;
    [apply (hoare_ret () (λ _, P))|].
  apply (hoare_bind _ _ P (λ _, P)); [apply Hbody|]. intros _. apply IH.
Qed.

Lemma store_inv_with_term id desc t : store_inv t → store_inv (with_term id desc t).
Proof.
  intros Hinv row Hrow. unfold term_ids. simpl.
  rewrite fmap_app. apply elem_of_app. left. by apply Hinv.
Qed.

Lemma store_inv_without_term_loci id t :
  store_inv t → store_inv (without_term_loci id t).
Proof.
  intros Hinv row Hrow. simpl in Hrow.
  apply list_elem_of_filter in Hrow as [_ Hrow]. by apply Hinv.
Qed.

Lemma hoare_delete_term id :
  hoare store_inv (delete_term id) (λ _, store_inv) store_inv.
Proof.
  unfold delete_term.
  set (cleared := λ t, store_inv t ∧ ∀ row, row ∈ term_loci t → row.1 ≠ id).
  apply (hoare_bind _ _ _ (λ _, store_inv)); [apply hoare_step|]. intros _.
  apply (hoare_bind _ _ _ (λ _, cleared)).
  { apply (hoare_weaken _ (λ t, cleared (without_term_loci id t)));
      [|apply hoare_write].
    intros t Hinv. split.
    - by apply store_inv_without_term_loci.
    - intros row Hrow. simpl in Hrow.
      by apply list_elem_of_filter in Hrow as [Hne _]. }
  intros _.
  apply (hoare_bind _ _ _ (λ _, cleared)).
  { apply (hoare_conseq _ cleared cleared (λ _, cleared) (λ _, cleared)
             cleared store_inv); [done|done| |apply hoare_step].
    by intros t [Hinv _]. }
  intros _.
  apply (hoare_weaken _ (λ t, store_inv (without_term id t)));
    [|apply hoare_write].
  intros t [Hinv Hne] row Hrow. simpl in Hrow.
  unfold term_ids. simpl.
  specialize (Hinv row Hrow). apply list_elem_of_fmap in Hinv as (r & Hr & Hin).
  apply list_elem_of_fmap. exists r. split; [done|].
  apply list_elem_of_filter. split; [|done]. rewrite <- Hr. by apply Hne.
Qed.

Lemma hoare_transaction (open : bool) (m : M ()) (P : tables → Prop) :
  hoare P m (λ _, P) P →
  hoare P
    ((if open then begin_transaction else mret ()) ;; m ;;
     (if open then end_transaction else mret ()))
    (λ _, P) P.
Proof.
  intros Hm.
  apply (hoare_bind _ _ _ (λ _, P)).
  { destruct open; [apply hoare_begin|apply (hoare_ret () (λ _, P))]. }
  intros _. apply (hoare_bind _ _ _ (λ _, P)); [exact Hm|]. intros _.
  destruct open; [apply hoare_end|apply (hoare_ret () (λ _, P))].
Qed.

Lemma hoare_del_term (term : Term.t Locus pval + string) cursor :
  hoare store_inv (del_term term cursor) (λ _, store_inv) store_inv.
Proof.
  unfold del_term.
  apply (hoare_bind _ _ _ (λ _, store_inv)).
  { destruct cursor; [apply (hoare_ret () (λ _, store_inv))|apply hoare_begin]. }
  intros _. apply (hoare_bind _ _ _ (λ _, store_inv)); [apply hoare_delete_term|].
  intros _.
  destruct cursor; [apply (hoare_ret () (λ _, store_inv))|apply hoare_end].
Qed.

Lemma hoare_add_term (term : Term.t Locus pval) cursor overwrite :
  hoare store_inv (add_term locus_id term cursor overwrite)
    (λ _, store_inv) store_inv.
Proof.
  unfold add_term. rewrite loci_guard.
  set (holds := λ t, store_inv t ∧ Term.id term ∈ term_ids t).
  apply (hoare_bind _ _ _ (λ _, store_inv)).
  { destruct overwrite;
      [apply hoare_del_term|apply (hoare_ret () (λ _, store_inv))]. }
  intros _. apply (hoare_bind _ _ _ (λ _, store_inv)).
  { destruct cursor; [apply (hoare_ret () (λ _, store_inv))|apply hoare_begin]. }
  intros _. apply (hoare_bind _ _ _ (λ _, holds)).
  { apply hoare_insert_term. intros t Hinv _. split.
    - by apply store_inv_with_term.
    - unfold term_ids. simpl. rewrite fmap_app. apply elem_of_app.
      right. by left. }
  intros _.
  apply (hoare_conseq _ holds holds (λ _, holds) (λ _, store_inv)
           holds store_inv); [done|by intros _ t [Hinv _]|by intros t [Hinv _]|].
  apply (hoare_bind _ _ _ (λ _, holds)).
  { apply hoare_for_each. intros locus. apply hoare_insert_term_locus.
    intros t [Hinv Hid]. split; [|done].
    intros row Hrow. simpl in Hrow. unfold term_ids. simpl.
    apply elem_of_app in Hrow as [Hrow|Hrow]; [by apply Hinv|].
    by apply list_elem_of_singleton in Hrow as ->. }
  intros _.
  destruct cursor; [apply (hoare_ret () (λ _, holds))|apply hoare_end].
Qed.

(** Every association row belongs to a stored term, before and after
    each method that writes, whether it returns or raises; [add_terms]
    for every iterable, sequence or one-pass. *)
Theorem store_inv_kept :
  (∀ (term : Term.t Locus pval) cursor overwrite,
     hoare store_inv (add_term locus_id term cursor overwrite)
       (λ _, store_inv) store_inv)
  ∧ (∀ (term : Term.t Locus pval + string) cursor,
       hoare store_inv (del_term term cursor) (λ _, store_inv) store_inv)
  ∧ (∀ (terms : iterable (Term.t Locus pval)) overwrite,
       hoare store_inv (add_terms locus_id terms overwrite)
         (λ _, store_inv) store_inv)
  ∧ (∀ terms : list (Term.t Locus pval),
       hoare store_inv (del_terms terms) (λ _, store_inv) store_inv).
Proof.
  assert (Hdel : ∀ terms : list (Term.t Locus pval),
            hoare store_inv (del_terms terms) (λ _, store_inv) store_inv).
  { intros terms. unfold del_terms.
    apply (hoare_transaction true
             (for_each (λ term, del_term (inl term) (Some BatchCursor)) terms)).
    apply hoare_for_each. intros term. apply hoare_del_term. }
  split; [apply hoare_add_term|]. split; [apply hoare_del_term|].
  split; [|exact Hdel].
  intros terms overwrite. unfold add_terms.
  apply (hoare_bind _ _ _ (λ _, store_inv)).
  { destruct overwrite; [apply Hdel|apply (hoare_ret () (λ _, store_inv))]. }
  intros _.
  apply (hoare_transaction true
           (for_each (λ term, add_term locus_id term (Some BatchCursor) false)
              (elements (if overwrite then walked terms else terms)))).
  apply hoare_for_each. intros term. apply hoare_add_term.
Qed.

End Invariant.

(** * Runs of the small ontology *)

Module Runs.

Import Example.

Example stored_by_add_term :
  (add_term T1 None false ;; add_term T2 None false) created = (Ok (), stored).
Proof. reflexivity. Qed.

Example in_operand_two : in_operand locus_id ["a"; "b"] = "('a','b')".
Proof. reflexivity. Qed.

Example in_operand_none : in_operand locus_id [] = "('')".
Proof. reflexivity. Qed.

Example in_list_none : in_list (in_operand locus_id []) = Some [""].
Proof. reflexivity. Qed.

Example in_list_quoted : in_list (in_operand locus_id ["x','a"]) = Some ["x"; "a"].
Proof. reflexivity. Qed.

Example hypergeom_sf_no_draw : hypergeom_sf 0 3 1 0 = 0%Q.
Proof. reflexivity. Qed.

Lemma known_loci_T1 locus : locus ∈ Term.loci T1 → genes (locus_id locus) = Some locus.
Proof.
  intros Hin. simpl in Hin.
  apply elem_of_cons in Hin as [->|Hin]; [reflexivity|].
  apply elem_of_cons in Hin as [->|Hin]; [reflexivity|].
  by apply not_elem_of_nil in Hin.
Defined.

Lemma store_inv_created : store_inv (view created).
Proof. intros row Hrow. by apply not_elem_of_nil in Hrow. Defined.

Lemma add_term_getitem_witness :
  ∃ term' : Term,
    getitem "T1" (Database (Tables [("T1", "first term")]
                                   [("T1", "a"); ("T1", "b")]) None None)
    = (Ok term', Database (Tables [("T1", "first term")]
                                  [("T1", "a"); ("T1", "b")]) None None)
    ∧ Term.id term' = "T1"
    ∧ Term.desc term' = "first term"
    ∧ (list_to_set (Term.loci term') : gset Locus) = list_to_set ["a"; "b"].
Proof.
  apply (add_term_getitem locus_id genes T1 None false created).
  - reflexivity.
  - exact store_inv_created.
  - exact known_loci_T1.
  - reflexivity.
Defined.

(** A term with a locus the reference genome does not know is inserted,
    and cannot be looked up afterwards: the lookup fails as it does for a
    term that is not stored. *)
Lemma add_term_getitem_orphan :
  add_term T3 None false created
  = (Ok (), Database (Tables [("T3", "third term")] [("T3", "zz")]) None None)
  ∧ getitem "T3"
      (Database (Tables [("T3", "third term")] [("T3", "zz")]) None None)
    = (Raise NotFoundError,
       Database (Tables [("T3", "third term")] [("T3", "zz")]) None None).
Proof. split; reflexivity. Qed.

Lemma add_term_duplicate_witness :
  ∃ w2 n,
    add_term T1 None false
      (Database (Tables [("T1", "first term")] [("T1", "a"); ("T1", "b")])
         None None)
    = (Raise DuplicateTermError, w2)
    ∧ len (Database (Tables [("T1", "first term")] [("T1", "a"); ("T1", "b")])
             None None)
      = (Ok n, Database (Tables [("T1", "first term")]
                                [("T1", "a"); ("T1", "b")]) None None)
    ∧ len w2 = (Ok n, w2).
Proof.
  apply (add_term_duplicate locus_id T1 T1 None false None created).
  - reflexivity.
  - reflexivity.
  - reflexivity.
  - reflexivity.
Defined.



(** The same failure in a call with [overwrite]: the term stored under
    the id has been deleted, and the deletion committed, by the time the
    insert fails. *)
Example add_term_interrupted_overwrite :
  add_term T1 None true
    (Database (Tables [("T1", "old term")] [("T1", "c")]) None (Some 7))
  = (Raise IOError,
     Database (Tables [] [])
       (Some (Tables [("T1", "first term")] [("T1", "a")])) None).
Proof. reflexivity. Qed.

(** The same failure in a call that is handed a cursor outside of a
    transaction: the partial term is committed. *)
Example add_term_interrupted_autocommit :
  add_term T1 (Some BatchCursor) false (Database (Tables [] []) None (Some 2))
  = (Raise IOError,
     Database (Tables [("T1", "first term")] [("T1", "a")]) None None).
Proof. reflexivity. Qed.

Lemma getitem_not_found_witness : (getitem "T9" stored).1 = Raise NotFoundError.
Proof.
  apply (getitem_not_found genes stored "T9").
  - apply (bool_decide_unpack _). vm_compute. exact I.
  - discriminate.
Defined.

Lemma num_distinct_loci_universe_witness :
  (num_distinct_loci stored).1
  = Ok (size (list_to_set (term_loci (view stored)).*2 : gset string))
  ∧ (num_distinct_loci stored).1
    = (num_distinct_loci
         (Database
            (Tables [("T1", "first term"); ("T2", "second term")]
                    [("T2", ""); ("T1", "b"); ("T1", "a")])
            None None)).1
  ∧ (insert_term_locus "T1" "a" ;; num_distinct_loci) stored
    = ((num_distinct_loci stored).1, (insert_term_locus "T1" "a" stored).2).
Proof.
  destruct num_distinct_loci_universe as (Hcount & Horder & Hdup).
  split; [|split].
  - apply Hcount. discriminate.
  - apply Horder; [discriminate|discriminate|].
    simpl. apply (bool_decide_unpack _). vm_compute. exact I.
  - apply Hdup; [reflexivity|]. simpl. left.
Defined.

Example enrichment_a :
  enrichment ["a"] (1 # 20)%Q 300 stored = (Ok [T1_enriched], stored).
Proof. reflexivity. Qed.

Lemma enrichment_max_term_size_witness :
  ((Z.of_nat (size (membership genes (view stored) "T1")) ≤ 300)%Z
   ∧ (is_Some (in_list (in_operand locus_id ["a"])) →
      (Z.of_nat (size (membership genes (view stored) "T1")) ≤ 300)%Z))
  ∧ (test_term genes Qle_bool hypergeom_sf ["a"] (1 # 20)%Q 1 [] T1 stored).1
    = Ok [].
Proof.
  split.
  - apply (proj1 (enrichment_max_term_size locus_id genes Qle_bool hypergeom_sf
                    sqlite_other ["a"] (1 # 20)%Q 300)
             stored [T1_enriched] stored T1_enriched).
    + reflexivity.
    + left.
  - apply (proj2 (enrichment_max_term_size locus_id genes Qle_bool hypergeom_sf
                    sqlite_other ["a"] (1 # 20)%Q 1)
             stored [] T1).
    + discriminate.
    + vm_compute. reflexivity.
Defined.



Lemma enrichment_counts_witness :
  Term.attrs T1_enriched !! "pval"
  = Some (hypergeom_sf
            (size (membership genes (view stored) "T1" ∩ list_to_set ["a"]))
            (count_distinct_loci (view stored))
            (size (membership genes (view stored) "T1"))
            1)
  ∧ Term.attrs (Term.set_attr "pval" (hypergeom_sf 1 3 2 2) T1) !! "pval"
    = Some (hypergeom_sf
              (size (membership genes (view stored) "T1" ∩ list_to_set ["a"]))
              (count_distinct_loci (view stored))
              (size (membership genes (view stored) "T1"))
              2)
  ∧ test_term genes Qle_bool hypergeom_sf ["a"; "a"] (1 # 2)%Q 300 [] T1 stored
    = (Ok
         (if bool_decide
               (300 < Z.of_nat (size (membership genes (view stored) "T1")))%Z
          then []
          else if Qle_bool
                    (hypergeom_sf
                       (size (membership genes (view stored) "T1"
                              ∩ list_to_set ["a"; "a"]))
                       (count_distinct_loci (view stored))
                       (size (membership genes (view stored) "T1"))
                       2) (1 # 2)%Q
          then [] ++ [Term.set_attr "pval"
                        (hypergeom_sf
                           (size (membership genes (view stored) "T1"
                                  ∩ list_to_set ["a"; "a"]))
                           (count_distinct_loci (view stored))
                           (size (membership genes (view stored) "T1"))
                           2) T1]
          else []), stored)
  ∧ ∃ names w0,
      select_candidates sqlite_other (in_operand locus_id ["a"]) stored
      = (Ok names, w0)
      ∧ ∀ term : Term,
          term ∈ [T1_enriched]
          ↔ ∃ term0 : Term,
              Term.id term0 ∈ names
              ∧ lookup genes (Term.id term0) (view stored) = Ok term0
              ∧ (Z.of_nat (size (membership genes (view stored) (Term.id term0)))
                 ≤ 300)%Z
              ∧ Qle_bool
                  (hypergeom_sf
                     (size (membership genes (view stored) (Term.id term0)
                            ∩ list_to_set ["a"]))
                     (count_distinct_loci (view stored))
                     (size (membership genes (view stored) (Term.id term0)))
                     1) (1 # 20)%Q = true
              ∧ term = Term.set_attr "pval"
                  (hypergeom_sf
                     (size (membership genes (view stored) (Term.id term0)
                            ∩ list_to_set ["a"]))
                     (count_distinct_loci (view stored))
                     (size (membership genes (view stored) (Term.id term0)))
                     1) term0.
Proof.
  split; [|split; [|split]]; cycle 3.
  { apply (proj1 (enrichment_counts locus_id genes Qle_bool hypergeom_sf
                    sqlite_other ["a"] (1 # 20)%Q 300)
             stored [T1_enriched] stored).
    reflexivity. }
  - apply (proj1 (proj2 (proj2 (proj2
             (enrichment_counts locus_id genes Qle_bool hypergeom_sf
                sqlite_other ["a"] (1 # 20)%Q 300))))
             stored [T1_enriched] stored T1_enriched).
    + reflexivity.
    + left.
  - apply (proj2 (proj2 (proj2 (proj2
             (enrichment_counts locus_id genes Qle_bool hypergeom_sf
                sqlite_other ["a"] (1 # 2)%Q 300))))
             "a" stored
             [Term.set_attr "pval" (hypergeom_sf 1 3 2 2) T1] stored
             (Term.set_attr "pval" (hypergeom_sf 1 3 2 2) T1)).
    + left.
    + reflexivity.
    + left.
  - apply (proj1 (proj2 (proj2
             (enrichment_counts locus_id genes Qle_bool hypergeom_sf
                sqlite_other ["a"; "a"] (1 # 2)%Q 300)))
             stored [] T1).
    reflexivity.
Defined.

(** With the locus [a] given twice, [T1] is tested at [num_common = 1] and
    [num_sampled = 2]. *)
Example enrichment_twice :
  enrichment ["a"; "a"] (1 # 2)%Q 300 stored
  = (Ok [Term.set_attr "pval" (hypergeom_sf 1 3 2 2) T1], stored).
Proof. reflexivity. Qed.

Lemma enrichment_unvalidated_witness :
  (enrichment ["a'b"] 0%Q 0 stored).1 = Raise SQLError
  ∧ (Z.of_nat (size (membership genes (view stored) "T1")) ≤ 300)%Z
  ∧ ∃ p, Term.attrs T1_enriched !! "pval" = Some p
         ∧ Qle_bool p (1 # 20)%Q = true.
Proof.
  split.
  - apply (proj1 (enrichment_unvalidated locus_id genes Qle_bool hypergeom_sf
                    sqlite_other ["a'b"] (1 # 20)%Q 300 stored eq_refl)
             0%Q 0%Z SQLError).
    reflexivity.
  - destruct (enrichment_unvalidated locus_id genes Qle_bool hypergeom_sf
                sqlite_other ["a"] (1 # 20)%Q 300 stored eq_refl)
      as [_ Hreturned].
    destruct (Hreturned [T1_enriched]) as [Hterm _]; [reflexivity|].
    destruct (Hterm T1_enriched) as (_ & Hsz & Hp); [left|].
    split; [|exact Hp]. apply Hsz. by eexists.
Defined.

(** With a cutoff and a maximal term size that are zero, or negative,
    [enrichment] returns: it raises nothing. *)
Lemma enrichment_accepts_nonpositive :
  enrichment ["a"] 0%Q 0 stored = (Ok [], stored)
  ∧ enrichment ["a"] (-1 # 1)%Q (-1) stored = (Ok [], stored).
Proof. split; reflexivity. Qed.

(** C6. [enrichment([])] on a store in which the term [T2] is associated
    with a locus whose id is empty.  The operand of [IN] is formatted as
    [('')], the candidate query selects [T2], and [T2] is returned with a
    p-value of 0, although [locus_list] has no locus at all. *)
Theorem enrichment_empty_locus_list :
  loci_of_term "T2" (view stored) = [""]
  ∧ in_operand locus_id [] = "('')"
  ∧ select_candidates sqlite_other (in_operand locus_id []) stored
    = (Ok ["T2"], stored)
  ∧ enrichment [] (1 # 20)%Q 300 stored
    = (Ok [Term.set_attr "pval" 0%Q T2], stored).
Proof. repeat split; reflexivity. Qed.

(** The same happens with a locus id that holds a quote: the operand
    [('x','a')] names two literals, neither of them the id given, and [T1]
    is selected for its locus [a]. *)
Example enrichment_quoted_locus :
  in_operand locus_id ["x','a"] = "('x','a')"
  ∧ select_candidates sqlite_other (in_operand locus_id ["x','a"]) stored
    = (Ok ["T1"], stored)
  ∧ enrichment ["x','a"] (3 # 4)%Q 300 stored
    = (Ok [Term.set_attr "pval" (2 # 3)%Q T1], stored).
Proof. repeat split; reflexivity. Qed.

(** [add_term] without a cursor opens a transaction of its own: inside a
    transaction that a batching caller has opened on the connection it
    fails on [BEGIN TRANSACTION]. *)
Example add_term_in_open_transaction :
  add_term T1 None false (Database (Tables [] []) (Some (Tables [] [])) None)
  = (Raise SQLError, Database (Tables [] []) (Some (Tables [] [])) None).
Proof. reflexivity. Qed.

(** No method rolls back: the transaction of an [add_term] that has raised
    stays open, and the next [add_term] fails on [BEGIN TRANSACTION]. *)
Example add_term_after_duplicate :
  (add_term T1 None false stored).1 = Raise ConstraintError
  ∧ pending (add_term T1 None false stored).2 = Some (committed stored)
  ∧ (add_term T3 None false (add_term T1 None false stored).2).1
    = Raise SQLError.
Proof. repeat split; reflexivity. Qed.

End Runs.

(** * Further properties of the methods *)

(** ** Deleting and inserting one term *)

Section SingleTerm.

Context {Locus : Type} `{Countable Locus}.
Variable locus_id : Locus → string.
Variable genes : string → option Locus.
Context {pval : Type}.

Abbreviation Term := (Term.t Locus pval).

Lemma filter_all {A} (P : A → Prop) `{∀ x, Decision (P x)} (l : list A) :
  (∀ x, x ∈ l → P x) → filter P l = l.
Proof.
  induction l as [|x l IH]; intros Hall; [done|].
  rewrite filter_cons_True by (apply Hall; left).
  f_equal. apply IH. intros y Hy. apply Hall. by right.
Qed.

Lemma filter_other (id id' : string) (l : list (string * string)) :
  id' ≠ id →
  filter (λ r, r.1 = id') (filter (λ r, r.1 ≠ id) l) = filter (λ r, r.1 = id') l.
Proof.
  intros Hne. induction l as [|r l IH]; [done|].
  destruct (decide (r.1 = id)) as [Heq|Hr].
  - rewrite (filter_cons_False (λ r, r.1 ≠ id)) by (intros Hn; by apply Hn).
    rewrite (filter_cons_False (λ r, r.1 = id')) by congruence. exact IH.
  - rewrite (filter_cons_True (λ r, r.1 ≠ id)) by done.
    destruct (decide (r.1 = id')) as [Hr'|Hr'].
    + rewrite !(filter_cons_True (λ r, r.1 = id')) by done. by rewrite IH.
    + rewrite !(filter_cons_False (λ r, r.1 = id')) by done. exact IH.
Qed.

(** What [self[id]] returns depends on the row of [id] and on its
    association rows only. *)
Lemma lookup_frame id t1 t2 :
  term_by_id id t1 = term_by_id id t2 →
  loci_of_term id t1 = loci_of_term id t2 →
  lookup genes (pval := pval) id t1 = lookup genes id t2.
Proof.
  intros Hrow Hloci. unfold lookup. rewrite <- Hrow.
  destruct (term_by_id id t1) as [[i d]|] eqn:Hi; [|done].
  apply term_by_id_Some in Hi as [Hfst _]. simpl in Hfst. subst i.
  by rewrite Hloci.
Qed.

Lemma lookup_deleted_other id id' t :
  id' ≠ id →
  lookup genes (pval := pval) id' (deleted id t) = lookup genes id' t.
Proof.
  intros Hne. apply lookup_frame.
  - unfold term_by_id, deleted. simpl. by rewrite filter_other.
  - unfold loci_of_term, deleted. simpl. by rewrite filter_other.
Qed.

Lemma lookup_deleted id t :
  lookup genes (pval := pval) id (deleted id t) = Raise TypeError.
Proof.
  unfold lookup.
  assert (Hnone : term_by_id id (deleted id t) = None)
    by apply term_by_id_None, term_ids_deleted.
  by rewrite Hnone.
Qed.

Lemma lookup_added_other (term : Term) id' t :
  id' ≠ Term.id term →
  lookup genes (pval := pval) id' (added locus_id term t) = lookup genes id' t.
Proof.
  intros Hne. apply lookup_frame.
  - unfold term_by_id, added. simpl. rewrite filter_app.
    rewrite (filter_cons_False _ (Term.id term, Term.desc term))
      by (simpl; congruence).
    by rewrite filter_nil, app_nil_r.
  - unfold loci_of_term, added, rows_of. simpl. rewrite filter_app.
    rewrite (filter_none _ (_ <$> Term.loci term)); [by rewrite app_nil_r|].
    intros row Hrow Heq. apply list_elem_of_fmap in Hrow as (locus & -> & _).
    simpl in Heq. congruence.
Qed.

Lemma deleted_absent id t :
  id ∉ term_ids t → store_inv t → deleted id t = t.
Proof.
  intros Hid Hinv. destruct t as [ts ls]. unfold deleted, without_term,
    without_term_loci. simpl. f_equal.
  - apply filter_all. intros row Hrow Heq. apply Hid.
    apply list_elem_of_fmap. by exists row.
  - apply filter_all. intros row Hrow Heq. apply Hid.
    rewrite <- Heq. by apply (Hinv row).
Qed.

Lemma deleted_deleted id t : deleted id (deleted id t) = deleted id t.
Proof.
  unfold deleted, without_term, without_term_loci. simpl. f_equal.
  - apply filter_all. intros row Hrow.
    by apply list_elem_of_filter in Hrow as [Hne _].
  - apply filter_all. intros row Hrow.
    by apply list_elem_of_filter in Hrow as [Hne _].
Qed.

(** What a [del_term] that returns has done. *)
Lemma del_term_Ok (term : Term + string) cursor w w' :
  budget w = None →
  del_term term cursor w = (Ok (), w') →
  view w' = deleted (match term with inl t => Term.id t | inr s => s end) (view w)
  ∧ budget w' = None.
Proof.
  intros Hb Hrun. destruct w as [c p b]. simpl in Hb. subst b.
  rewrite del_term_healthy in Hrun. simpl in Hrun.
  destruct cursor as [cur|], p as [t|]; try done;
    injection Hrun as <-; by rewrite ?view_written, ?budget_written.
Qed.

(** A term that [del_term] has deleted is gone: looking up its id raises
    [NotFoundError] and no association row of it is left. *)
Theorem del_term_removes (term : Term + string) cursor w w' :
  budget w = None →
  del_term term cursor w = (Ok (), w') →
  getitem genes (pval := pval)
    (match term with inl t => Term.id t | inr s => s end) w'
  = (Raise NotFoundError, w')
  ∧ loci_of_term (match term with inl t => Term.id t | inr s => s end) (view w')
    = [].
Proof.
  intros Hb Hrun. destruct (del_term_Ok _ _ _ _ Hb Hrun) as [Hview Hb'].
  rewrite getitem_healthy by done. rewrite Hview.
  split; [by rewrite lookup_deleted|apply loci_of_term_deleted].
Qed.

(** [del_term] leaves every other term as it is: looking up another id
    gives what it gave before. *)
Theorem del_term_frame (term : Term + string) cursor w w' id' :
  budget w = None →
  del_term term cursor w = (Ok (), w') →
  id' ≠ match term with inl t => Term.id t | inr s => s end →
  (getitem genes (pval := pval) id' w').1 = (getitem genes id' w).1.
Proof.
  intros Hb Hrun Hne. destruct (del_term_Ok _ _ _ _ Hb Hrun) as [Hview Hb'].
  rewrite !getitem_healthy by done. simpl. rewrite Hview.
  by apply lookup_deleted_other.
Qed.

(** Outside of a transaction [del_term] always returns; deleting a second
    time changes nothing, and deleting an id that is not stored leaves the
    store as it is. *)
Theorem del_term_idempotent (term : Term + string) w :
  budget w = None →
  pending w = None →
  ∃ w1,
    del_term term None w = (Ok (), w1)
    ∧ del_term term None w1 = (Ok (), w1)
    ∧ (match term with inl t => Term.id t | inr s => s end ∉ term_ids (view w) →
       store_inv (view w) → w1 = w).
Proof.
  intros Hb Hp. destruct w as [c p b]. simpl in *. subst.
  eexists. rewrite !del_term_healthy. simpl.
  split; [reflexivity|]. split.
  - by rewrite deleted_deleted.
  - intros Hid Hinv. unfold view in *. simpl in *.
    by rewrite deleted_absent.
Qed.

(** [add_term] leaves every other term as it is. *)
Theorem add_term_frame (term : Term) cursor overwrite w w' id' :
  budget w = None →
  add_term locus_id term cursor overwrite w = (Ok (), w') →
  id' ≠ Term.id term →
  (getitem genes (pval := pval) id' w').1 = (getitem genes id' w).1.
Proof.
  intros Hb Hrun Hne.
  destruct (add_term_Ok _ _ _ _ _ _ Hb Hrun) as (_ & Hview & Hb' & _).
  rewrite !getitem_healthy by done. simpl. rewrite Hview.
  rewrite lookup_added_other by done.
  destruct overwrite; [by apply lookup_deleted_other|done].
Qed.

(** With [overwrite], [add_term] first calls [del_term(term.id)], which
    opens a transaction of its own: inside an open transaction the call
    raises on that [BEGIN TRANSACTION], whatever cursor it is given, and
    nothing is written. *)
Theorem add_term_overwrite_in_transaction (term : Term) cursor w :
  budget w = None →
  is_Some (pending w) →
  add_term locus_id term cursor true w = (Raise SQLError, w).
Proof.
  intros Hb [t Hp]. destruct w as [c p b]. simpl in *. subst.
  by rewrite add_term_overwrite_healthy.
Qed.

(** A successful [add_term] without [overwrite] makes [len] one more. *)
Theorem add_term_len (term : Term) cursor w w' :
  budget w = None →
  add_term locus_id term cursor false w = (Ok (), w') →
  ∃ n, len w = (Ok n, w) ∧ len w' = (Ok (S n), w').
Proof.
  intros Hb Hrun.
  destruct (add_term_Ok _ _ _ _ _ _ Hb Hrun) as (_ & Hview & Hb' & _).
  exists (count_terms (view w)). unfold len.
  rewrite !select_healthy by done. split; [done|].
  rewrite Hview. unfold count_terms, added. simpl.
  rewrite length_app. simpl. do 2 f_equal. lia.
Qed.

End SingleTerm.

(** ** Who owns the transaction *)

Section Ownership.

Context {Locus : Type} `{Countable Locus}.
Variable locus_id : Locus → string.
Context {pval : Type}.

Abbreviation Term := (Term.t Locus pval).











Lemma NoDup_snoc_fresh (l : list string) x : NoDup l → x ∉ l → NoDup (l ++ [x]).
Proof.
  intros Hl Hx. apply NoDup_app. split; [done|]. split.
  - intros y Hy Hin. apply list_elem_of_singleton in Hin as ->. done.
  - apply NoDup_singleton.
Qed.

Lemma unique_ids_without_term id t : unique_ids t → unique_ids (without_term id t).
Proof.
  unfold unique_ids, term_ids. simpl. generalize (terms t). clear t.
  intros l. induction l as [|r l IH]; intros Hl; [done|].
  apply NoDup_cons in Hl as [Hr Hl].
  destruct (decide (r.1 ≠ id)).
  - rewrite filter_cons_True by done. rewrite fmap_cons.
    apply NoDup_cons. split; [|by apply IH].
    intros Hin. apply Hr. apply list_elem_of_fmap in Hin as (r' & Hr' & Hin).
    apply list_elem_of_filter in Hin as [_ Hin].
    apply list_elem_of_fmap. by exists r'.
  - rewrite filter_cons_False by done. by apply IH.
Qed.

Lemma hoare_unique_delete_term id :
  hoare unique_ids (delete_term id) (λ _, unique_ids) unique_ids.
Proof.
  unfold delete_term.
  apply (hoare_bind _ _ _ (λ _, unique_ids)); [apply hoare_step|]. intros _.
  apply (hoare_bind _ _ _ (λ _, unique_ids)).
  { apply (hoare_weaken _ (λ t, unique_ids (without_term_loci id t)));
      [done|apply hoare_write]. }
  intros _.
  apply (hoare_bind _ _ _ (λ _, unique_ids)); [apply hoare_step|]. intros _.
  apply (hoare_weaken _ (λ t, unique_ids (without_term id t)));
    [|apply hoare_write].
  intros t. apply unique_ids_without_term.
Qed.

Lemma hoare_unique_del_term (x : Term + string) cursor :
  hoare unique_ids (del_term x cursor) (λ _, unique_ids) unique_ids.
Proof.
  unfold del_term.
  apply (hoare_bind _ _ _ (λ _, unique_ids)).
  { destruct cursor; [apply (hoare_ret () (λ _, unique_ids))|apply hoare_begin]. }
  intros _. apply (hoare_bind _ _ _ (λ _, unique_ids));
    [apply hoare_unique_delete_term|].
  intros _.
  destruct cursor; [apply (hoare_ret () (λ _, unique_ids))|apply hoare_end].
Qed.

Lemma hoare_unique_add_term (term : Term) cursor overwrite :
  hoare unique_ids (add_term locus_id term cursor overwrite)
    (λ _, unique_ids) unique_ids.
Proof.
  unfold add_term. rewrite loci_guard.
  apply (hoare_bind _ _ _ (λ _, unique_ids)).
  { destruct overwrite;
      [apply hoare_unique_del_term|apply (hoare_ret () (λ _, unique_ids))]. }
  intros _. apply (hoare_bind _ _ _ (λ _, unique_ids)).
  { destruct cursor; [apply (hoare_ret () (λ _, unique_ids))|apply hoare_begin]. }
  intros _. apply (hoare_bind _ _ _ (λ _, unique_ids)).
  { apply hoare_insert_term. intros t Hu Hid.
    unfold unique_ids, term_ids. simpl. rewrite fmap_app.
    by apply NoDup_snoc_fresh. }
  intros _. apply (hoare_bind _ _ _ (λ _, unique_ids)).
  { apply hoare_for_each. intros locus. apply hoare_insert_term_locus. done. }
  intros _.
  destruct cursor; [apply (hoare_ret () (λ _, unique_ids))|apply hoare_end].
Qed.

(** No two rows of [terms] have the same id, before and after each method
    that writes, whether it returns or raises; [add_terms] for every
    iterable, sequence or one-pass. *)
Theorem unique_ids_kept :
  (∀ (term : Term) cursor overwrite,
     hoare unique_ids (add_term locus_id term cursor overwrite)
       (λ _, unique_ids) unique_ids)
  ∧ (∀ (x : Term + string) cursor,
       hoare unique_ids (del_term x cursor) (λ _, unique_ids) unique_ids)
  ∧ (∀ (terms : iterable Term) overwrite,
       hoare unique_ids (add_terms locus_id terms overwrite)
         (λ _, unique_ids) unique_ids)
  ∧ (∀ terms : list Term,
       hoare unique_ids (del_terms terms) (λ _, unique_ids) unique_ids)
  ∧ hoare unique_ids _clear_tables (λ _, unique_ids) unique_ids.
Proof.
  assert (Hdel : ∀ terms : list Term,
            hoare unique_ids (del_terms terms) (λ _, unique_ids) unique_ids).
  { intros terms. unfold del_terms.
    apply (hoare_transaction true
             (for_each (λ term, del_term (inl term) (Some BatchCursor)) terms)).
    apply hoare_for_each. intros term. apply hoare_unique_del_term. }
  split; [apply hoare_unique_add_term|]. split; [apply hoare_unique_del_term|].
  split; [|split; [exact Hdel|]].
  - intros terms overwrite. unfold add_terms.
    apply (hoare_bind _ _ _ (λ _, unique_ids)).
    { destruct overwrite; [apply Hdel|apply (hoare_ret () (λ _, unique_ids))]. }
    intros _.
    apply (hoare_transaction true
             (for_each (λ term, add_term locus_id term (Some BatchCursor) false)
                (elements (if overwrite then walked terms else terms)))).
    apply hoare_for_each. intros term. apply hoare_unique_add_term.
  - unfold _clear_tables.
    apply (hoare_bind _ _ _ (λ _, unique_ids)); [apply hoare_step|]. intros _.
    apply (hoare_bind _ _ _ (λ _, unique_ids)).
    { apply (hoare_weaken _ (λ t, unique_ids (without_terms t)));
        [|apply hoare_write].
      intros t _. apply NoDup_nil_2. }
    intros _.
    apply (hoare_bind _ _ _ (λ _, unique_ids)); [apply hoare_step|]. intros _.
    apply (hoare_weaken _ (λ t, unique_ids (without_associations t)));
      [done|apply hoare_write].
Qed.

End Ownership.

(** ** Batches *)

Section Batches.

Context {Locus : Type} `{Countable Locus}.
Variable locus_id : Locus → string.
Variable genes : string → option Locus.
Context {pval : Type}.

Abbreviation Term := (Term.t Locus pval).

Lemma del_term_cursor_healthy (x : Term + string) cur w :
  budget w = None →
  del_term x (Some cur) w
  = (Ok (), written (deleted (match x with inl t => Term.id t | inr s => s end)) w).
Proof.
  intros Hb. destruct w as [c p b]. simpl in Hb. subst b.
  by rewrite del_term_healthy.
Qed.

Lemma add_term_cursor_healthy (term : Term) cur w :
  budget w = None →
  add_term locus_id term (Some cur) false w
  = if decide (Term.id term ∈ term_ids (view w)) then (Raise ConstraintError, w)
    else (Ok (), written (added locus_id term) w).
Proof.
  intros Hb. destruct w as [c p b]. simpl in Hb. subst b.
  by rewrite add_term_healthy.
Qed.

Lemma for_each_del_healthy (terms : list Term) : ∀ w,
  budget w = None →
  for_each (λ term, del_term (inl term) (Some BatchCursor)) terms w
  = (Ok (), written (deleted_all terms) w).
Proof.
  induction terms as [|term terms IH]; intros w Hb; simpl.
  - by rewrite written_id.
  - rewrite bind_run, del_term_cursor_healthy by done.
    rewrite IH by (by rewrite budget_written).
    by rewrite written_written.
Qed.

Lemma del_terms_healthy (terms : list Term) c p :
  del_terms terms (Database c p None)
  = match p with
    | Some _ => (Raise SQLError, Database c p None)
    | None => (Ok (), Database (deleted_all terms c) None None)
    end.
Proof.
  unfold del_terms. rewrite bind_run, begin_healthy.
  destruct p as [t|]; [done|].
  by rewrite bind_run, for_each_del_healthy.
Qed.

Lemma for_each_add_healthy (terms : list Term) : ∀ w,
  budget w = None →
  for_each (λ term, add_term locus_id term (Some BatchCursor) false) terms w
  = (if (inserted locus_id terms (view w)).2 then Ok () else Raise ConstraintError,
     written (λ _, (inserted locus_id terms (view w)).1) w).
Proof.
  induction terms as [|term terms IH]; intros w Hb; simpl.
  - f_equal. rewrite <- (written_id w) at 1. by apply written_ext.
  - rewrite bind_run, add_term_cursor_healthy by done.
    destruct (decide _) as [Hin|Hin]; simpl.
    + f_equal. rewrite <- (written_id w) at 1. by apply written_ext.
    + rewrite IH by (by rewrite budget_written).
      rewrite view_written, written_written. done.
Qed.

Lemma add_terms_healthy (terms : iterable Term) overwrite c :
  add_terms locus_id terms overwrite (Database c None None)
  = let c0 := if overwrite then deleted_all (elements terms) c else c in
    let batch := insert_pass terms overwrite in
    if (inserted locus_id batch c0).2
    then (Ok (), Database (inserted locus_id batch c0).1 None None)
    else (Raise ConstraintError,
          Database c0 (Some (inserted locus_id batch c0).1) None).
Proof.
  unfold add_terms, insert_pass. rewrite bind_run.
  assert (Hfirst :
    (if overwrite then del_terms (elements terms) else mret ())
      (Database c None None)
    = (Ok (),
       Database (if overwrite then deleted_all (elements terms) c else c)
         None None)).
  { destruct overwrite; [by rewrite del_terms_healthy|done]. }
  rewrite Hfirst. simpl.
  rewrite bind_run, begin_healthy, bind_run, for_each_add_healthy by done.
  unfold view. simpl. by destruct (inserted _ _ _).2.
Qed.

Lemma term_ids_added (term : Term) t :
  term_ids (added locus_id term t) = term_ids t ++ [Term.id term].
Proof. unfold term_ids, added. simpl. by rewrite fmap_app. Qed.

(** Every term the insert pass got through had a fresh id. *)
Lemma inserted_fresh (terms : list Term) : ∀ t term,
  (inserted locus_id terms t).2 = true →
  term ∈ terms → Term.id term ∉ term_ids t.
Proof.
  induction terms as [|term0 terms IH]; intros t term Hok Hin; simpl in *.
  - by apply not_elem_of_nil in Hin.
  - destruct (decide _) as [|Hfresh]; [done|].
    apply elem_of_cons in Hin as [->|Hin]; [done|].
    intros Hid. apply (IH _ _ Hok Hin).
    rewrite term_ids_added. apply elem_of_app. by left.
Qed.

Lemma inserted_NoDup (terms : list Term) : ∀ t,
  (inserted locus_id terms t).2 = true → NoDup (Term.id <$> terms).
Proof.
  induction terms as [|term0 terms IH]; intros t Hok; simpl in *.
  - constructor.
  - destruct (decide _) as [|Hfresh]; [done|].
    constructor; [|by apply (IH _ Hok)].
    intros Hin. apply list_elem_of_fmap in Hin as (term & Heq & Hin).
    apply (inserted_fresh _ _ _ Hok Hin).
    rewrite term_ids_added, <- Heq. apply elem_of_app. right. by left.
Qed.

Lemma inserted_intro (terms : list Term) : ∀ t,
  NoDup (Term.id <$> terms) →
  (∀ term, term ∈ terms → Term.id term ∉ term_ids t) →
  (inserted locus_id terms t).2 = true.
Proof.
  induction terms as [|term0 terms IH]; intros t Hnd Hfresh; simpl; [done|].
  rewrite fmap_cons in Hnd. apply NoDup_cons in Hnd as [Hhead Hnd].
  rewrite decide_False by (apply Hfresh; left).
  apply IH; [done|]. intros term Hin. rewrite term_ids_added.
  intros Hid. apply elem_of_app in Hid as [Hid|Hid].
  - apply (Hfresh term); [by right|done].
  - apply list_elem_of_singleton in Hid. apply Hhead.
    apply list_elem_of_fmap. by exists term.
Qed.

(** The later inserts of a pass leave the terms already there alone. *)
Lemma lookup_inserted_frame (terms : list Term) : ∀ t id',
  (inserted locus_id terms t).2 = true →
  id' ∈ term_ids t →
  lookup genes (pval := pval) id' (inserted locus_id terms t).1
  = lookup genes id' t.
Proof.
  induction terms as [|term0 terms IH]; intros t id' Hok Hid; simpl in *; [done|].
  destruct (decide _) as [|Hfresh]; [done|].
  rewrite IH; [|done|].
  - apply lookup_added_other. intros ->. done.
  - rewrite term_ids_added. apply elem_of_app. by left.
Qed.

Lemma loci_of_term_added_other (term : Term) id' t :
  id' ≠ Term.id term →
  loci_of_term id' (added locus_id term t) = loci_of_term id' t.
Proof.
  intros Hne. unfold loci_of_term, added, rows_of. simpl. rewrite filter_app.
  rewrite (filter_none _ (_ <$> Term.loci term)); [by rewrite app_nil_r|].
  intros row Hrow Heq. apply list_elem_of_fmap in Hrow as (locus & -> & _).
  simpl in Heq. congruence.
Qed.

Lemma lookup_added (term : Term) t :
  Term.id term ∉ term_ids t →
  loci_of_term (Term.id term) t = [] →
  (∀ locus, locus ∈ Term.loci term → genes (locus_id locus) = Some locus) →
  lookup genes (pval := pval) (Term.id term) (added locus_id term t)
  = Ok (Term.Build (Term.id term) (Term.desc term) (Term.loci term) ∅).
Proof.
  intros Hid Hnone Hknown. unfold lookup.
  rewrite term_by_id_added by done.
  rewrite loci_of_term_added, Hnone. simpl.
  by rewrite mapM_resolve_known.
Qed.

(** A term of a pass that went through is found afterwards. *)
Lemma lookup_inserted (terms : list Term) : ∀ t term,
  (inserted locus_id terms t).2 = true →
  term ∈ terms →
  (∀ term', term' ∈ terms → loci_of_term (Term.id term') t = []) →
  (∀ locus, locus ∈ Term.loci term → genes (locus_id locus) = Some locus) →
  lookup genes (pval := pval) (Term.id term) (inserted locus_id terms t).1
  = Ok (Term.Build (Term.id term) (Term.desc term) (Term.loci term) ∅).
Proof.
  induction terms as [|term0 terms IH]; intros t term Hok Hin Hnone Hknown;
    simpl in *.
  { by apply not_elem_of_nil in Hin. }
  destruct (decide _) as [|Hfresh]; [done|].
  assert (Hnew : ∀ term', term' ∈ terms → Term.id term' ≠ Term.id term0).
  { intros term' Hin' Heq. apply (inserted_fresh _ _ _ Hok Hin').
    rewrite term_ids_added, Heq. apply elem_of_app. right. by left. }
  apply elem_of_cons in Hin as [->|Hin].
  - rewrite lookup_inserted_frame;
      [|done|rewrite term_ids_added; apply elem_of_app; right; by left].
    apply lookup_added; [done|apply Hnone; left|done].
  - apply IH; [done|done| |done].
    intros term' Hin'. rewrite loci_of_term_added_other by by apply Hnew.
    apply Hnone. by right.
Qed.

Lemma deleted_all_cons (term : Term) terms t :
  deleted_all (term :: terms) t = deleted_all terms (deleted (Term.id term) t).
Proof. reflexivity. Qed.

Lemma term_ids_deleted_all (terms : list Term) : ∀ t id,
  id ∈ term_ids (deleted_all terms t) →
  id ∈ term_ids t ∧ ∀ term, term ∈ terms → id ≠ Term.id term.
Proof.
  induction terms as [|term0 terms IH]; intros t id Hid.
  - split; [done|]. intros term Hin. by apply not_elem_of_nil in Hin.
  - rewrite deleted_all_cons in Hid. apply IH in Hid as [Hid Hne].
    unfold term_ids, deleted in Hid. simpl in Hid.
    apply list_elem_of_fmap in Hid as (row & -> & Hrow).
    apply list_elem_of_filter in Hrow as [Hrow0 Hrow].
    split; [apply list_elem_of_fmap; by exists row|].
    intros term Hin. apply elem_of_cons in Hin as [->|Hin]; [done|by apply Hne].
Qed.

Lemma term_loci_deleted_all (terms : list Term) : ∀ t row,
  row ∈ term_loci (deleted_all terms t) →
  row ∈ term_loci t ∧ ∀ term, term ∈ terms → row.1 ≠ Term.id term.
Proof.
  induction terms as [|term0 terms IH]; intros t row Hrow.
  - split; [done|]. intros term Hin. by apply not_elem_of_nil in Hin.
  - rewrite deleted_all_cons in Hrow. apply IH in Hrow as [Hrow Hne].
    unfold deleted in Hrow. simpl in Hrow.
    apply list_elem_of_filter in Hrow as [Hrow0 Hrow].
    split; [done|].
    intros term Hin. apply elem_of_cons in Hin as [->|Hin]; [done|by apply Hne].
Qed.

Lemma loci_of_term_deleted_all (terms : list Term) t term :
  term ∈ terms → loci_of_term (Term.id term) (deleted_all terms t) = [].
Proof.
  intros Hin. unfold loci_of_term. rewrite filter_none; [done|].
  intros row Hrow Heq. apply term_loci_deleted_all in Hrow as [_ Hne].
  by apply (Hne term).
Qed.

Lemma lookup_deleted_all_other (terms : list Term) : ∀ t id',
  (∀ term, term ∈ terms → id' ≠ Term.id term) →
  lookup genes (pval := pval) id' (deleted_all terms t) = lookup genes id' t.
Proof.
  induction terms as [|term0 terms IH]; intros t id' Hne; [done|].
  rewrite deleted_all_cons, IH by (intros term Hin; apply Hne; by right).
  apply lookup_deleted_other. apply Hne. left.
Qed.

Lemma lookup_deleted_all (terms : list Term) t term :
  term ∈ terms →
  lookup genes (pval := pval) (Term.id term) (deleted_all terms t)
  = Raise TypeError.
Proof.
  intros Hin. unfold lookup.
  assert (Hnone : term_by_id (Term.id term) (deleted_all terms t) = None).
  { apply term_by_id_None. intros Hid.
    apply term_ids_deleted_all in Hid as [_ Hne]. by apply (Hne term). }
  by rewrite Hnone.
Qed.

(** Outside of a transaction [del_terms] returns, whether or not the terms
    are stored; afterwards none of them is found and every other term is
    as it was. *)
Theorem del_terms_removes_all (terms : list Term) w :
  budget w = None →
  pending w = None →
  ∃ w',
    del_terms terms w = (Ok (), w')
    ∧ (∀ term, term ∈ terms →
         getitem genes (pval := pval) (Term.id term) w'
         = (Raise NotFoundError, w'))
    ∧ (∀ id', (∀ term, term ∈ terms → id' ≠ Term.id term) →
         (getitem genes (pval := pval) id' w').1 = (getitem genes id' w).1).
Proof.
  intros Hb Hp. destruct w as [c p b]. simpl in *. subst.
  eexists. rewrite del_terms_healthy. split; [reflexivity|]. split.
  - intros term Hin. rewrite getitem_healthy by done. unfold view. simpl.
    by rewrite lookup_deleted_all.
  - intros id' Hne. rewrite !getitem_healthy by done. unfold view. simpl.
    by apply lookup_deleted_all_other.
Qed.

Lemma add_terms_in_transaction (terms : iterable Term) overwrite c t :
  add_terms locus_id terms overwrite (Database c (Some t) None)
  = (Raise SQLError, Database c (Some t) None).
Proof.
  unfold add_terms. rewrite bind_run. destruct overwrite.
  - by rewrite del_terms_healthy.
  - simpl. by rewrite bind_run, begin_healthy.
Qed.

(** [add_terms] returns only when the terms its [for] walks have pairwise
    different ids: a second term with the id of an earlier one conflicts
    with it.  For a sequence these are the terms of the batch, with or
    without [overwrite]. *)
Theorem add_terms_distinct (terms : iterable Term) overwrite w w' :
  budget w = None →
  add_terms locus_id terms overwrite w = (Ok (), w') →
  NoDup (Term.id <$> insert_pass terms overwrite)
  ∧ ∀ batch, terms = Sequence batch → NoDup (Term.id <$> batch).
Proof.
  intros Hb Hrun.
  assert (Hnd : NoDup (Term.id <$> insert_pass terms overwrite)).
  { destruct w as [c [t|] b]; simpl in Hb; subst b.
    - by rewrite add_terms_in_transaction in Hrun.
    - rewrite add_terms_healthy in Hrun. simpl in Hrun.
      destruct (inserted _ _ _).2 eqn:Hok; [|done].
      by apply inserted_NoDup in Hok. }
  split; [exact Hnd|]. intros batch ->. by destruct overwrite.
Qed.

(** Outside of a transaction, [add_terms] with [overwrite] returns for
    every sequence of terms with pairwise different ids, whatever the
    store holds; the transaction is closed, and every term of the batch
    whose loci the reference genome knows is then found with its id, its
    description and its loci. *)
Theorem add_terms_round_trip (terms : list Term) w :
  budget w = None →
  pending w = None →
  NoDup (Term.id <$> terms) →
  ∃ w',
    add_terms locus_id (Sequence terms) true w = (Ok (), w')
    ∧ pending w' = None
    ∧ ∀ term,
        term ∈ terms →
        (∀ locus, locus ∈ Term.loci term → genes (locus_id locus) = Some locus) →
        getitem genes (pval := pval) (Term.id term) w'
        = (Ok (Term.Build (Term.id term) (Term.desc term) (Term.loci term) ∅),
           w').
Proof.
  intros Hb Hp Hnd. destruct w as [c p b]. simpl in *. subst.
  assert (Hok : (inserted locus_id terms (deleted_all terms c)).2 = true).
  { apply inserted_intro; [done|]. intros term Hin Hid.
    apply term_ids_deleted_all in Hid as [_ Hne]. by apply (Hne term). }
  eexists. rewrite add_terms_healthy. unfold insert_pass. simpl. rewrite Hok.
  split; [reflexivity|]. split; [done|].
  intros term Hin Hknown. rewrite getitem_healthy by done. unfold view. simpl.
  f_equal. apply lookup_inserted; [done|done| |done].
  intros term' Hin'. by apply loci_of_term_deleted_all.
Qed.

(** [add_terms] with [overwrite] is two transactions.  When two terms of
    a sequence have the same id, the insert pass raises [ConstraintError]
    and is left uncommitted, but the delete pass has been committed: the
    terms of the batch that were stored are gone. *)
Theorem add_terms_not_atomic (terms : list Term) w :
  budget w = None →
  pending w = None →
  ¬ NoDup (Term.id <$> terms) →
  ∃ w',
    add_terms locus_id (Sequence terms) true w = (Raise ConstraintError, w')
    ∧ committed w' = deleted_all terms (committed w)
    ∧ is_Some (pending w').
Proof.
  intros Hb Hp Hdup. destruct w as [c p b]. simpl in *. subst.
  eexists. rewrite add_terms_healthy. unfold insert_pass. simpl.
  destruct (inserted _ _ _).2 eqn:Hok.
  { by apply inserted_NoDup in Hok. }
  split; [reflexivity|]. split; [done|]. by eexists.
Qed.

(** [add_terms] with [overwrite] walks its argument twice.  Handed a
    one-pass iterator (a generator), the delete pass exhausts it and the
    insert pass finds it empty: the call returns, the terms the iterator
    yielded are deleted, and none of them is inserted, whatever their
    ids. *)
Theorem add_terms_one_pass (terms : list Term) w :
  budget w = None →
  pending w = None →
  ∃ w',
    add_terms locus_id (Generator terms) true w = (Ok (), w')
    ∧ committed w' = deleted_all terms (committed w)
    ∧ pending w' = None
    ∧ ∀ term,
        term ∈ terms →
        getitem genes (pval := pval) (Term.id term) w'
        = (Raise NotFoundError, w').
Proof.
  intros Hb Hp. destruct w as [c p b]. simpl in *. subst.
  eexists. rewrite add_terms_healthy. unfold insert_pass. simpl.
  split; [reflexivity|]. split; [done|]. split; [done|].
  intros term Hin. rewrite getitem_healthy by done. unfold view. simpl.
  by rewrite lookup_deleted_all.
Qed.

End Batches.

(** ** Listing, clearing and looking up *)

Section Listing.

Context {Locus : Type} `{Countable Locus}.
Variable locus_id : Locus → string.
Variable genes : string → option Locus.
Context {pval : Type}.
Variable pval_le : pval → pval → bool.
Variable hypergeom_sf : nat → nat → nat → nat → pval.
Variable sqlite_other :
  string → tables → option tables → outcome (list string) * (tables * option tables).

Abbreviation Term := (Term.t Locus pval).

Lemma omap_cons_Some {A B} (f : A → option B) x y l :
  f x = Some y → omap f (x :: l) = y :: omap f l.
Proof.
  intros Hx. change (omap f (x :: l))
    with (match f x with Some y => y :: omap f l | None => omap f l end).
  by rewrite Hx.
Qed.

Lemma mapM_resolve_Ok ids l :
  mapM (resolve genes) ids = Ok l →
  l = omap genes ids ∧ ∀ gene_id, gene_id ∈ ids → is_Some (genes gene_id).
Proof.
  revert l. induction ids as [|i ids IH]; intros l.
  - intros [= <-]. split; [done|]. intros g Hg. by apply not_elem_of_nil in Hg.
  - change (mapM (resolve genes) (i :: ids))
      with (y ← resolve genes i; ys ← mapM (resolve genes) ids; mret (y :: ys)).
    destruct (resolve genes i) as [y|e] eqn:Hy; simpl; [|done].
    destruct (mapM (resolve genes) ids) as [ys|e] eqn:Hys; simpl; [|done].
    intros [= <-]. destruct (IH ys eq_refl) as [-> Hall].
    unfold resolve in Hy. destruct (genes i) as [locus|] eqn:Hi; [|done].
    injection Hy as ->. split.
    + reflexivity.
    + intros g Hg. apply elem_of_cons in Hg as [->|Hg]; [by eexists|by apply Hall].
Qed.

Lemma mapM_resolve_all ids :
  (∀ gene_id, gene_id ∈ ids → is_Some (genes gene_id)) →
  mapM (resolve genes) ids = Ok (omap genes ids).
Proof.
  induction ids as [|i ids IH]; intros Hall; [done|].
  change (mapM (resolve genes) (i :: ids))
    with (y ← resolve genes i; ys ← mapM (resolve genes) ids; mret (y :: ys)).
  destruct (Hall i) as [locus Hi]; [left|].
  assert (Hy : resolve genes i = Ok locus) by (unfold resolve; by rewrite Hi).
  rewrite Hy, IH by (intros g Hg; apply Hall; by right).
  by rewrite (omap_cons_Some _ _ _ _ Hi).
Qed.

(** What is known of a term that [self[id]] returns. *)
Lemma lookup_Ok_inv id t (term : Term) :
  lookup genes id t = Ok term →
  id ∈ term_ids t
  ∧ (∀ gene_id, gene_id ∈ loci_of_term id t → is_Some (genes gene_id))
  ∧ term = Term.Build id (Term.desc term) (omap genes (loci_of_term id t)) ∅
  ∧ (id, Term.desc term) ∈ terms t.
Proof.
  unfold lookup. destruct (term_by_id id t) as [[i d]|] eqn:Hrow; [|done].
  pose proof (term_by_id_Some _ _ _ Hrow) as [Hfst Hin]. simpl in Hfst. subst i.
  destruct (mapM _ _) as [l|e] eqn:Hl; simpl; [|done].
  intros [= <-]. apply mapM_resolve_Ok in Hl as [-> Hall]. simpl.
  split; [|done].
  apply list_elem_of_fmap. by exists (id, d).
Qed.

Lemma mapM_ids (names : list string) (l : list Term) t :
  mapM (λ name, lookup genes name t) names = Ok l → Term.id <$> l = names.
Proof.
  intros Hl. apply mapM_Ok in Hl.
  induction Hl as [|name term names l Hterm _ IH]; [done|].
  rewrite fmap_cons, IH. f_equal.
  apply lookup_Ok_inv in Hterm as (_ & _ & -> & _). done.
Qed.

Lemma reads_iter_terms : reads (iter_terms genes (pval := pval)) (listed genes).
Proof.
  unfold iter_terms.
  apply (reads_bind _ _ (λ t, Ok (ids_by_index t))
           (λ ids t, mapM (λ id, lookup genes id t) ids)).
  { apply reads_select. }
  intros ids. apply (reads_comprehension _ (lookup genes)). apply reads_getitem.
Qed.

(** [terms()] lists one term per row of [terms], as many as [len] counts,
    in ascending order of their ids: the order of the index that
    [SELECT id FROM terms] is answered from, whatever the order in which
    the terms were added.  It returns whenever the reference genome knows
    every associated locus id. *)
Theorem iter_terms_all :
  (∀ w l w',
     iter_terms genes (pval := pval) w = (Ok l, w') →
     Term.id <$> l = ids_by_index (view w)
     ∧ Term.id <$> l ≡ₚ term_ids (view w)
     ∧ Sorted String.le (Term.id <$> l)
     ∧ length l = count_terms (view w))
  ∧ (∀ w,
       budget w = None →
       (∀ row, row ∈ term_loci (view w) → is_Some (genes row.2)) →
       ∃ l, iter_terms genes (pval := pval) w = (Ok l, w)).
Proof.
  split.
  - intros w l w' Hrun.
    apply (reads_Ok _ _ _ _ _ reads_iter_terms) in Hrun as [Hl _].
    apply mapM_ids in Hl.
    assert (Hperm : Term.id <$> l ≡ₚ term_ids (view w)).
    { rewrite Hl. apply merge_sort_Permutation. }
    split; [done|]. split; [done|]. split.
    + rewrite Hl. apply (Sorted_merge_sort String.le).
    + unfold count_terms.
      rewrite <- (length_fmap fst (terms (view w))), <- (length_fmap Term.id l).
      by apply Permutation_length.
  - intros w Hb Hknown.
    destruct (reads_iter_terms w) as (_ & _ & Hrun & _). rewrite (Hrun Hb).
    unfold listed.
    assert (Hall : ∀ ids, (∀ i, i ∈ ids → i ∈ term_ids (view w)) →
              ∃ l, mapM (λ id, lookup genes (pval := pval) id (view w)) ids = Ok l).
    { induction ids as [|i ids IH]; intros Hsub; [by exists []|].
      destruct IH as [l Hl]; [intros x Hx; apply Hsub; by right|].
      assert (Hi : i ∈ term_ids (view w)) by (apply Hsub; left).
      change (mapM (λ id, lookup genes id (view w)) (i :: ids))
        with (y ← lookup genes (pval := pval) i (view w);
              ys ← mapM (λ id, lookup genes id (view w)) ids; mret (y :: ys)).
      rewrite Hl. unfold lookup.
      destruct (term_by_id i (view w)) as [[i' d]|] eqn:Hrow;
        [|by apply term_by_id_None in Hrow].
      rewrite mapM_resolve_all; [by eexists|].
      intros g Hg. unfold loci_of_term in Hg.
      apply list_elem_of_fmap in Hg as (row & -> & Hrow').
      apply list_elem_of_filter in Hrow' as [_ Hrow']. by apply Hknown. }
    destruct (Hall (ids_by_index (view w))) as [l Hl].
    { intros i Hi. unfold ids_by_index in Hi.
      by rewrite merge_sort_Permutation in Hi. }
    exists l. by rewrite Hl.
Qed.

(** On a healthy backend, looking up the id of a stored term returns a
    term with the id and the description of that row, the loci that the
    ids of its association rows resolve to and no attribute, when the
    reference genome knows all of those ids; when it does not know one of
    them, the lookup raises [NotFoundError], as it does for an id that is
    not stored. *)
Theorem getitem_stored id w :
  budget w = None →
  id ∈ term_ids (view w) →
  ∃ desc,
    (id, desc) ∈ terms (view w)
    ∧ ((∀ gene_id, gene_id ∈ loci_of_term id (view w) → is_Some (genes gene_id)) →
       ∃ term_loci,
         getitem genes (pval := pval) id w
         = (Ok (Term.Build id desc term_loci ∅), w)
         ∧ term_loci ≡ₚ omap genes (loci_of_term id (view w)))
    ∧ ((∃ gene_id, gene_id ∈ loci_of_term id (view w) ∧ genes gene_id = None) →
       getitem genes (pval := pval) id w = (Raise NotFoundError, w)).
Proof.
  intros Hb Hid. rewrite getitem_healthy by done. unfold lookup.
  destruct (term_by_id id (view w)) as [[i d]|] eqn:Hrow;
    [|by apply term_by_id_None in Hrow].
  pose proof (term_by_id_Some _ _ _ Hrow) as [Hfst Hin]. simpl in Hfst. subst i.
  exists d. split; [done|]. split.
  - intros Hknown. eexists. by rewrite mapM_resolve_all.
  - intros (g & Hg & Hnone).
    destruct (mapM (resolve genes) (loci_of_term id (view w))) as [l|e] eqn:Hl.
    + apply mapM_resolve_Ok in Hl as [_ Hall].
      destruct (Hall g Hg) as [locus Hsome]. congruence.
    + simpl. apply resolve_all_error in Hl as ->. done.
Qed.

Lemma clear_tables_healthy w :
  budget w = None →
  _clear_tables w = (Ok (), written (λ _, Tables [] []) w).
Proof.
  intros Hb. unfold _clear_tables.
  rewrite bind_run, step_healthy by done.
  rewrite bind_run, write_run.
  rewrite bind_run, step_healthy by (by rewrite budget_written).
  by rewrite write_run, written_written.
Qed.

(** On a healthy backend [_clear_tables] returns and leaves no term and
    no association: [len] and [num_distinct_loci] are 0 and [terms()] is
    empty.  Outside of a transaction the empty tables are committed. *)
Theorem clear_tables_empties w :
  budget w = None →
  ∃ w',
    _clear_tables w = (Ok (), w')
    ∧ len w' = (Ok 0, w')
    ∧ num_distinct_loci w' = (Ok 0, w')
    ∧ iter_terms genes (pval := pval) w' = (Ok [], w')
    ∧ (pending w = None → w' = Database (Tables [] []) None None).
Proof.
  intros Hb. eexists. rewrite clear_tables_healthy by done.
  assert (Hb' : budget (written (λ _, Tables [] []) w) = None)
    by (by rewrite budget_written).
  split; [reflexivity|].
  unfold len, num_distinct_loci.
  rewrite !select_healthy by done. rewrite view_written.
  split; [done|]. split; [done|]. split.
  - destruct (reads_iter_terms (written (λ _, Tables [] []) w))
      as (_ & _ & Hrun & _).
    rewrite (Hrun Hb'), view_written. done.
  - intros Hp. destruct w as [c p b]. simpl in *. by subst.
Qed.



End Listing.

(** ** What [enrichment] returns *)

Section Returned.

Context {Locus : Type} `{Countable Locus}.
Variable locus_id : Locus → string.
Variable genes : string → option Locus.
Context {pval : Type}.
Variable pval_le : pval → pval → bool.
Variable hypergeom_sf : nat → nat → nat → nat → pval.
Variable sqlite_other :
  string → tables → option tables → outcome (list string) * (tables * option tables).

Abbreviation Term := (Term.t Locus pval).

Lemma enriched_Ok locus_list pval_cutoff max_term_size w r w' :
  enrichment locus_id genes pval_le hypergeom_sf sqlite_other
    locus_list pval_cutoff max_term_size w = (Ok r, w') →
  ∃ names w0 terms,
    select_candidates sqlite_other (in_operand locus_id locus_list) w
    = (Ok names, w0)
    ∧ mapM (λ name, lookup genes name (view w')) names = Ok terms
    ∧ r = foldl (tested genes pval_le hypergeom_sf locus_list pval_cutoff
                   max_term_size (view w')) [] terms.
Proof.
  intros Hrun.
  destruct (enrichment_Ok _ _ _ _ _ _ _ _ _ _ _ Hrun)
    as (names & w0 & Hq & _ & Hpure).
  unfold enriched in Hpure.
  destruct (mapM _ names) as [terms|e] eqn:Hterms; simpl in Hpure; [|done].
  injection Hpure as <-. by exists names, w0, terms.
Qed.

(** The tables at the end of a returning [enrichment] are those of its
    start when the operand is a list of string literals. *)
Lemma enrichment_Ok_view locus_list pval_cutoff max_term_size w r w' :
  enrichment locus_id genes pval_le hypergeom_sf sqlite_other
    locus_list pval_cutoff max_term_size w = (Ok r, w') →
  is_Some (in_list (in_operand locus_id locus_list)) →
  view w' = view w.
Proof.
  intros Hrun Hlit.
  pose proof (enrichment_view locus_id genes pval_le hypergeom_sf sqlite_other
                locus_list pval_cutoff max_term_size w Hlit) as Hview.
  by rewrite Hrun in Hview.
Qed.

(** The loop appends, in the order of the candidates, a part of them. *)
Lemma tested_ids locus_list pval_cutoff max_term_size t (terms : list Term) :
  ∀ acc,
    ∃ ids,
      Term.id <$> foldl (tested genes pval_le hypergeom_sf locus_list
                           pval_cutoff max_term_size t) acc terms
      = (Term.id <$> acc) ++ ids
      ∧ ids `sublist_of` (Term.id <$> terms).
Proof.
  induction terms as [|term terms IH]; intros acc; simpl.
  - exists []. by rewrite app_nil_r.
  - destruct (IH (tested genes pval_le hypergeom_sf locus_list pval_cutoff
                    max_term_size t acc term)) as (ids & -> & Hsub).
    unfold tested. case_bool_decide.
    + exists ids. split; [done|]. by apply sublist_cons.
    + destruct (pval_le _ _).
      * exists (Term.id term :: ids). rewrite fmap_app. simpl.
        rewrite <- app_assoc. split; [done|]. by apply sublist_skip.
      * exists ids. split; [done|]. by apply sublist_cons.
Qed.

(** [enrichment] returns its terms in the order in which the candidate
    query gave them, and no term twice when the operand of [IN] is a list
    of literals, the candidates then being the distinct terms with an
    association to one of the literals. *)
Theorem enrichment_order locus_list pval_cutoff max_term_size w r w' :
  enrichment locus_id genes pval_le hypergeom_sf sqlite_other
    locus_list pval_cutoff max_term_size w = (Ok r, w') →
  ∃ names w0,
    select_candidates sqlite_other (in_operand locus_id locus_list) w
    = (Ok names, w0)
    ∧ (Term.id <$> r) `sublist_of` names
    ∧ (is_Some (in_list (in_operand locus_id locus_list)) →
       NoDup (Term.id <$> r))
    ∧ (∀ vals,
         in_list (in_operand locus_id locus_list) = Some vals →
         names = distinct_terms_in vals (view w)).
Proof.
  intros Hrun. destruct (enriched_Ok _ _ _ _ _ _ Hrun)
    as (names & w0 & terms & Hq & Hterms & ->).
  exists names, w0. split; [done|].
  destruct (tested_ids locus_list pval_cutoff max_term_size (view w') terms [])
    as (ids & Hids & Hsub).
  simpl in Hids. rewrite Hids. rewrite (mapM_ids genes _ _ _ Hterms) in Hsub.
  split; [done|].
  assert (Hlit : ∀ vals,
            in_list (in_operand locus_id locus_list) = Some vals →
            names = distinct_terms_in vals (view w)).
  { intros vals Hvals.
    by destruct (select_candidates_literal _ _ _ _ _ _ Hvals Hq). }
  split; [|exact Hlit]. intros [vals Hvals].
  apply (sublist_NoDup ids names); [|done].
  rewrite (Hlit vals Hvals). apply NoDup_distinct.
Qed.

(** A term that [enrichment] returns is the term that [self[id]] returns
    for its id, with one attribute added, ["pval"].  The lookup is the one
    on the tables at the end of the call, which are those of its start
    when the operand is a list of string literals. *)
Theorem enrichment_returned_term locus_list pval_cutoff max_term_size w r w'
    (term : Term) :
  enrichment locus_id genes pval_le hypergeom_sf sqlite_other
    locus_list pval_cutoff max_term_size w = (Ok r, w') →
  term ∈ r →
  lookup genes (pval := pval) (Term.id term) (view w')
  = Ok (Term.Build (Term.id term) (Term.desc term) (Term.loci term) ∅)
  ∧ (is_Some (in_list (in_operand locus_id locus_list)) →
     lookup genes (pval := pval) (Term.id term) (view w)
     = Ok (Term.Build (Term.id term) (Term.desc term) (Term.loci term) ∅))
  ∧ ∃ p, Term.attrs term = {["pval" := p]}.
Proof.
  intros Hrun Hin.
  destruct (enrichment_returns _ _ _ _ _ _ _ _ _ _ _ Hrun)
    as (names & w0 & _ & _ & Hres).
  destruct (proj1 (Hres term) Hin) as (term0 & _ & Hl & _ & _ & ->).
  pose proof (lookup_Ok_inv genes _ _ _ Hl) as (_ & _ & Hterm0 & _).
  assert (Hattrs : Term.attrs term0 = ∅) by (by rewrite Hterm0).
  destruct term0 as [i d l a]. simpl in *. subst a.
  split; [done|]. split.
  - intros Hlit. by rewrite <- (enrichment_Ok_view _ _ _ _ _ _ Hrun Hlit).
  - eexists. by rewrite insert_empty.
Qed.

(** When [enrichment] returns, every candidate term is stored and the
    reference genome knows each of its locus ids: a candidate with an
    unknown locus makes the call raise, since the candidates are fetched
    with [self[name]].  The tables are those at the end of the call,
    which are those of its start when the operand is a list of string
    literals. *)
Theorem enrichment_candidates_resolved locus_list pval_cutoff max_term_size
    w r w' :
  enrichment locus_id genes pval_le hypergeom_sf sqlite_other
    locus_list pval_cutoff max_term_size w = (Ok r, w') →
  ∃ names w0,
    select_candidates sqlite_other (in_operand locus_id locus_list) w
    = (Ok names, w0)
    ∧ (is_Some (in_list (in_operand locus_id locus_list)) → view w' = view w)
    ∧ ∀ name, name ∈ names →
        name ∈ term_ids (view w')
        ∧ ∀ gene_id, gene_id ∈ loci_of_term name (view w') →
            is_Some (genes gene_id).
Proof.
  intros Hrun. destruct (enriched_Ok _ _ _ _ _ _ Hrun)
    as (names & w0 & terms & Hq & Hterms & _).
  exists names, w0. split; [done|].
  split; [by apply (enrichment_Ok_view _ _ _ _ _ _ Hrun)|].
  intros name Hname.
  apply mapM_Ok in Hterms.
  apply list_elem_of_lookup in Hname as [i Hi].
  destruct (Forall2_lookup_l _ _ _ _ _ Hterms Hi) as (term & _ & Hl).
  apply lookup_Ok_inv in Hl as (Hid & Hknown & _). done.
Qed.


End Returned.

(** * Further runs of the small ontology *)

Module Checks.

Import Example.

Lemma del_term_removes_witness :
  getitem "T1" (Database (Tables [("T2", "second term")] [("T2", "")]) None None)
  = (Raise NotFoundError,
     Database (Tables [("T2", "second term")] [("T2", "")]) None None)
  ∧ loci_of_term "T1"
      (view (Database (Tables [("T2", "second term")] [("T2", "")]) None None))
    = [].
Proof.
  apply (del_term_removes genes (pval := Q) (inr "T1") None stored).
  - reflexivity.
  - reflexivity.
Defined.

Lemma del_term_frame_witness :
  (getitem "T2"
     (Database (Tables [("T2", "second term")] [("T2", "")]) None None)).1
  = (getitem "T2" stored).1.
Proof.
  apply (del_term_frame genes (pval := Q) (inr "T1") None stored).
  - reflexivity.
  - reflexivity.
  - discriminate.
Defined.

Lemma del_term_idempotent_witness :
  ∃ w1,
    del_term (inr "T9" : Term + string) None stored = (Ok (), w1)
    ∧ del_term (inr "T9" : Term + string) None w1 = (Ok (), w1)
    ∧ ("T9" ∉ term_ids (view stored) → store_inv (view stored) → w1 = stored).
Proof.
  apply (del_term_idempotent (inr "T9" : Term + string) stored).
  - reflexivity.
  - reflexivity.
Defined.


Lemma add_term_frame_witness :
  (getitem "T1"
     (Database
        (Tables [("T1", "first term"); ("T2", "second term"); ("T3", "third term")]
                [("T1", "a"); ("T1", "b"); ("T2", ""); ("T3", "zz")])
        None None)).1
  = (getitem "T1" stored).1.
Proof.
  apply (add_term_frame locus_id genes T3 None false stored).
  - reflexivity.
  - reflexivity.
  - discriminate.
Defined.

Lemma add_term_overwrite_in_transaction_witness :
  add_term T1 (Some BatchCursor) true interrupted = (Raise SQLError, interrupted).
Proof.
  apply (add_term_overwrite_in_transaction locus_id T1 (Some BatchCursor)
           interrupted).
  - reflexivity.
  - by eexists.
Defined.

Lemma add_term_len_witness :
  ∃ n,
    len stored = (Ok n, stored)
    ∧ len (Database
             (Tables [("T1", "first term"); ("T2", "second term");
                      ("T3", "third term")]
                     [("T1", "a"); ("T1", "b"); ("T2", ""); ("T3", "zz")])
             None None)
      = (Ok (S n),
         Database
           (Tables [("T1", "first term"); ("T2", "second term");
                    ("T3", "third term")]
                   [("T1", "a"); ("T1", "b"); ("T2", ""); ("T3", "zz")])
           None None).
Proof.
  apply (add_term_len locus_id T3 None stored).
  - reflexivity.
  - reflexivity.
Defined.

Lemma del_terms_removes_all_witness :
  ∃ w',
    del_terms [T1] stored = (Ok (), w')
    ∧ (∀ term : Term, term ∈ [T1] →
         getitem (Term.id term) w' = (Raise NotFoundError, w'))
    ∧ (∀ id', (∀ term : Term, term ∈ [T1] → id' ≠ Term.id term) →
         (getitem id' w').1 = (getitem id' stored).1).
Proof.
  apply (del_terms_removes_all genes [T1] stored).
  - reflexivity.
  - reflexivity.
Defined.

Lemma add_terms_distinct_witness :
  NoDup (Term.id <$> insert_pass (Sequence [T1; T2]) true)
  ∧ ∀ batch : list Term,
      Sequence [T1; T2] = Sequence batch → NoDup (Term.id <$> batch).
Proof.
  apply (add_terms_distinct locus_id (Sequence [T1; T2]) true created stored).
  - reflexivity.
  - reflexivity.
Defined.

Lemma NoDup_T1_T2 : NoDup (Term.id <$> [T1; T2]).
Proof. apply (bool_decide_unpack _). vm_compute. exact I. Defined.

Lemma add_terms_round_trip_witness :
  ∃ w',
    add_terms locus_id (Sequence [T1; T2]) true stored = (Ok (), w')
    ∧ pending w' = None
    ∧ ∀ term : Term,
        term ∈ [T1; T2] →
        (∀ locus, locus ∈ Term.loci term → genes (locus_id locus) = Some locus) →
        getitem (Term.id term) w'
        = (Ok (Term.Build (Term.id term) (Term.desc term) (Term.loci term) ∅),
           w').
Proof.
  apply (add_terms_round_trip locus_id genes [T1; T2] stored).
  - reflexivity.
  - reflexivity.
  - exact NoDup_T1_T2.
Defined.

Lemma add_terms_not_atomic_witness :
  ∃ w',
    add_terms locus_id (Sequence [T1; T1]) true stored
    = (Raise ConstraintError, w')
    ∧ committed w' = deleted_all [T1; T1] (committed stored)
    ∧ is_Some (pending w').
Proof.
  apply (add_terms_not_atomic locus_id [T1; T1] stored).
  - reflexivity.
  - reflexivity.
  - intros Hnd. apply (bool_decide_pack _) in Hnd. vm_compute in Hnd. exact Hnd.
Defined.

Lemma add_terms_one_pass_witness :
  ∃ w',
    add_terms locus_id (Generator [T1; T2]) true stored = (Ok (), w')
    ∧ committed w' = deleted_all [T1; T2] (committed stored)
    ∧ pending w' = None
    ∧ ∀ term : Term,
        term ∈ [T1; T2] →
        getitem (Term.id term) w' = (Raise NotFoundError, w').
Proof.
  apply (add_terms_one_pass locus_id genes [T1; T2] stored).
  - reflexivity.
  - reflexivity.
Defined.

(** The two terms of the store, handed back with [overwrite] as a list
    and as a generator: the list is stored again, the generator empties
    the store. *)
Example add_terms_sequence_and_generator :
  add_terms locus_id (Sequence [T1; T2]) true stored = (Ok (), stored)
  ∧ add_terms locus_id (Generator [T1; T2]) true stored = (Ok (), created)
  ∧ add_terms locus_id (Generator [T1; T2]) false created = (Ok (), stored).
Proof. repeat split; reflexivity. Qed.

Lemma known_ids_stored row :
  row ∈ term_loci (view stored) → is_Some (genes row.2).
Proof.
  intros Hrow. simpl in Hrow.
  repeat (apply elem_of_cons in Hrow as [->|Hrow]; [by eexists|]).
  by apply not_elem_of_nil in Hrow.
Defined.

Lemma iter_terms_all_witness :
  (Term.id <$> [T1; T2] = ids_by_index (view stored)
   ∧ Term.id <$> [T1; T2] ≡ₚ term_ids (view stored)
   ∧ Sorted String.le (Term.id <$> [T1; T2])
   ∧ length [T1; T2] = count_terms (view stored))
  ∧ ∃ l : list Term, iter_terms genes stored = (Ok l, stored).
Proof.
  split.
  - apply (proj1 (iter_terms_all genes (pval := Q)) stored [T1; T2] stored).
    reflexivity.
  - apply (proj2 (iter_terms_all genes (pval := Q)) stored).
    + reflexivity.
    + exact known_ids_stored.
Defined.

(** [T2] added before [T1]: [terms()] lists [T1] first. *)
Example iter_terms_index_order :
  (add_term T2 None false ;; add_term T1 None false) created
  = (Ok (),
     Database (Tables [("T2", "second term"); ("T1", "first term")]
                      [("T2", ""); ("T1", "a"); ("T1", "b")]) None None)
  ∧ (iter_terms genes (pval := Q)
       (Database (Tables [("T2", "second term"); ("T1", "first term")]
                         [("T2", ""); ("T1", "a"); ("T1", "b")]) None None)).1
    = Ok [T1; T2].
Proof. split; reflexivity. Qed.

Lemma getitem_stored_witness :
  ∃ desc,
    ("T1", desc) ∈ terms (view stored)
    ∧ ((∀ gene_id, gene_id ∈ loci_of_term "T1" (view stored) →
          is_Some (genes gene_id)) →
       ∃ term_loci,
         getitem "T1" stored = (Ok (Term.Build "T1" desc term_loci ∅), stored)
         ∧ term_loci ≡ₚ omap genes (loci_of_term "T1" (view stored)))
    ∧ ((∃ gene_id, gene_id ∈ loci_of_term "T1" (view stored)
                   ∧ genes gene_id = None) →
       getitem "T1" stored = (Raise NotFoundError, stored)).
Proof.
  apply (getitem_stored genes (pval := Q) "T1" stored).
  - reflexivity.
  - simpl. left.
Defined.


(** A locus id that closes the literal list and goes on with a statement
    of its own: the call returns, and the terms are gone. *)
Example enrichment_smuggled_statement :
  in_operand locus_id ["x'); DELETE FROM terms; --"]
  = "('x'); DELETE FROM terms; --')"
  ∧ in_list (in_operand locus_id ["x'); DELETE FROM terms; --"]) = None
  ∧ enrichment_smuggled ["x'); DELETE FROM terms; --"] (1 # 20)%Q 300 stored
    = (Ok [],
       Database (Tables [] [("T1", "a"); ("T1", "b"); ("T2", "")]) None None).
Proof. repeat split; reflexivity. Qed.

Lemma clear_tables_empties_witness :
  ∃ w',
    _clear_tables stored = (Ok (), w')
    ∧ len w' = (Ok 0, w')
    ∧ num_distinct_loci w' = (Ok 0, w')
    ∧ iter_terms genes (pval := Q) w' = (Ok [], w')
    ∧ (pending stored = None → w' = Database (Tables [] []) None None).
Proof.
  apply (clear_tables_empties genes (pval := Q) stored). reflexivity.
Defined.

Lemma plain_a : Forall (λ locus, plain (locus_id locus) = true) ["a"].
Proof. repeat constructor. Defined.


Lemma enrichment_overlap_witness :
  ∃ locus,
    locus ∈ ["a"] ∧ locus_id locus ∈ loci_of_term "T1" (view stored).
Proof.
  apply (enrichment_overlap locus_id genes Qle_bool hypergeom_sf sqlite_other
           ["a"] (1 # 20)%Q 300 stored [T1_enriched] stored T1_enriched).
  - discriminate.
  - exact plain_a.
  - reflexivity.
  - left.
Defined.

Lemma enrichment_order_witness :
  ∃ names w0,
    select_candidates sqlite_other (in_operand locus_id ["a"]) stored
    = (Ok names, w0)
    ∧ (Term.id <$> [T1_enriched]) `sublist_of` names
    ∧ (is_Some (in_list (in_operand locus_id ["a"])) →
       NoDup (Term.id <$> [T1_enriched]))
    ∧ (∀ vals,
         in_list (in_operand locus_id ["a"]) = Some vals →
         names = distinct_terms_in vals (view stored)).
Proof.
  apply (enrichment_order locus_id genes Qle_bool hypergeom_sf sqlite_other
           ["a"] (1 # 20)%Q 300 stored [T1_enriched] stored).
  reflexivity.
Defined.

Lemma enrichment_returned_term_witness :
  lookup genes (pval := Q) "T1" (view stored)
  = Ok (Term.Build "T1" "first term" ["a"; "b"] ∅)
  ∧ (is_Some (in_list (in_operand locus_id ["a"])) →
     lookup genes (pval := Q) "T1" (view stored)
     = Ok (Term.Build "T1" "first term" ["a"; "b"] ∅))
  ∧ ∃ p, Term.attrs T1_enriched = {["pval" := p]}.
Proof.
  apply (enrichment_returned_term locus_id genes Qle_bool hypergeom_sf
           sqlite_other ["a"] (1 # 20)%Q 300 stored [T1_enriched] stored
           T1_enriched).
  - reflexivity.
  - left.
Defined.

Lemma enrichment_candidates_resolved_witness :
  ∃ names w0,
    select_candidates sqlite_other (in_operand locus_id ["a"]) stored
    = (Ok names, w0)
    ∧ (is_Some (in_list (in_operand locus_id ["a"])) →
       view stored = view stored)
    ∧ ∀ name, name ∈ names →
        name ∈ term_ids (view stored)
        ∧ ∀ gene_id, gene_id ∈ loci_of_term name (view stored) →
            is_Some (genes gene_id).
Proof.
  apply (enrichment_candidates_resolved locus_id genes Qle_bool hypergeom_sf
           sqlite_other ["a"] (1 # 20)%Q 300 stored [T1_enriched] stored).
  reflexivity.
Defined.



Lemma store_inv_kept_witness :
  store_inv (view (add_term T1 None false created).2).
Proof.
  exact (proj1 (store_inv_kept locus_id (pval := Q)) T1 None false created
           Runs.store_inv_created).
Defined.

Lemma unique_ids_kept_witness :
  unique_ids (view (add_term T1 None false created).2).
Proof.
  exact (proj1 (unique_ids_kept locus_id (pval := Q)) T1 None false created
           (NoDup_nil_2 : unique_ids (view created))).
Defined.

End Checks.
